(** * Multi-process communication helpers (mesh_graphormer/utils/comm.py)

    A shallow embedding of [gather_on_master] and [reduce_dict] together
    with the small queries they rest on ([get_world_size], [get_rank],
    [is_main_process], [synchronize]).

    One process of the group is modelled at a time.  What the other ranks
    pass to the same call is a list in rank order (the "group"); the
    collectives of [torch.distributed] are functions of the caller's own
    contribution and of that list.  Calls into [pickle] and into
    [torch.distributed] are recorded in a log, tensors that are mutated in
    place live in a heap. *)

From Stdlib Require Import ZArith Strings.Byte.
From Stdlib Require PrimFloat Uint63.
From stdpp Require Import base option list strings sorting.
Import (notations) PrimFloat.

(** ** The ambient [torch.distributed] state *)

Record dist := Dist {
  is_available : bool;          (* dist.is_available() *)
  is_initialized : bool;        (* dist.is_initialized() *)
  dist_get_world_size : nat;    (* dist.get_world_size() *)
  dist_get_rank : nat           (* dist.get_rank() *)
}.

Definition get_world_size (d : dist) : nat :=
  if negb (is_available d) then 1
  else if negb (is_initialized d) then 1
  else dist_get_world_size d.

Definition get_rank (d : dist) : nat :=
  if negb (is_available d) then 0
  else if negb (is_initialized d) then 0
  else dist_get_rank d.

Definition is_main_process (d : dist) : bool := get_rank d =? 0.

(** An initialised group of [n] processes, seen from rank [r]. *)
Definition group_dist (n r : nat) : dist := Dist true true n r.

(** ** Calls that leave the process *)

Inductive call :=
  | PickleDumps                       (* pickle.dumps(data) *)
  | PickleLoads (buffer : list byte)  (* pickle.loads(buffer) *)
  | AllGather                         (* dist.all_gather *)
  | Gather                            (* dist.gather *)
  | Reduce                            (* dist.reduce *)
  | Barrier.                          (* dist.barrier *)

(** ** Process state and the monad of the embedding *)

Section process.
Context {T : Type}.

(** [heap] holds the tensors of the process (a reference is an index),
    [calls] is the log of what it called so far. *)
Record proc := Proc { heap : list T; calls : list call }.

(** A computation either returns a value or does not return (an exception
    was raised, or the process is blocked in a collective for ever); in
    both cases the state reached is kept. *)
Definition M (A : Type) : Type := proc → option A * proc.

Definition raise {A} : M A := λ s, (None, s).
Definition lift {A} (o : option A) : M A := λ s, (o, s).
Definition emit (c : call) : M unit :=
  λ s, (Some (), Proc (heap s) (calls s ++ [c])).
Definition get_heap : M (list T) := λ s, (Some (heap s), s).
Definition put_heap (h : list T) : M unit := λ s, (Some (), Proc h (calls s)).
End process.

Arguments proc : clear implicits.
Arguments M : clear implicits.

#[global] Instance M_ret {T} : MRet (M T) := λ A a s, (Some a, s).
#[global] Instance M_bind {T} : MBind (M T) := λ A B f m s,
  match m s with
  | (Some a, s') => f a s'
  | (None, s') => (None, s')
  end.

(** ** [synchronize] *)

(** [dist.barrier()] returns once every rank of the group has called it;
    [arrived] tells whether the other ranks do.  When one of them never
    arrives the caller stays blocked. *)
Definition dist_barrier {T} (arrived : bool) : M T unit :=
  emit Barrier;; if arrived then mret () else raise.

Definition synchronize {T} (d : dist) (arrived : bool) : M T unit :=
  if negb (is_available d) then mret ()
  else if negb (is_initialized d) then mret ()
  else
    let world_size := dist_get_world_size d in
    if world_size =? 1 then mret () else dist_barrier arrived.

(** ** [gather_on_master] *)

(** [max(size_list)]; Python raises on an empty list. *)
Definition py_max (l : list Z) : option Z :=
  match l with
  | [] => None
  | x :: l' => Some (foldl Z.max x l')
  end.

(** What the ranks of the group hand to a collective, in rank order: the
    caller its own value [local], every other rank what the same code
    computes from its own argument ([f r x] for rank [r] called with [x];
    [None] when that rank raised before reaching the collective, which
    leaves the caller blocked). *)
Definition contributions {A B} (d : dist) (local : B) (f : nat → A → option B)
    (group : list A) : option (list B) :=
  mapM id (imap (λ r x, if decide (r = dist_get_rank d) then Some local
                        else f r x) group).

Section gather.
Context {Payload T : Type}.
(** The codec, [pickle.dumps] and [pickle.loads]. *)
Variable dumps : Payload → list byte.
Variable loads : list byte → option Payload.
(** [torch.ByteTensor(size=(n,))] allocates without initialising: what
    the bytes are is not decided by the program.  [garbage r i] is the
    byte found at offset [i] of such an allocation on rank [r]. *)
Variable garbage : nat → nat → byte.

Definition uninitialized (rank n : nat) : list byte :=
  garbage rank <$> seq 0 n.

Definition ByteTensor (rank : nat) (size : Z) : option (list byte) :=
  if (size <? 0)%Z then None
  else Some (uninitialized rank (Z.to_nat size)).

Definition pickle_dumps (data : Payload) : M T (list byte) :=
  emit PickleDumps;; mret (dumps data).

Definition pickle_loads (buffer : list byte) : M T Payload :=
  emit (PickleLoads buffer);; lift (loads buffer).

(** [dist.all_gather(out, local)]: every rank receives the contributions
    of all ranks in rank order; [out] must have one slot per rank. *)
Definition dist_all_gather {A} (out : list A) (contribs : option (list A))
    : M T (list A) :=
  emit AllGather;;
  received ← lift contribs;
  if bool_decide (length out = length received) then mret received
  else raise.

(** [dist.gather(tensor, gather_list, dst=0)].  On rank 0 the slots of
    [gather_list] are overwritten with the tensors of all ranks, which
    must fit the slots; elsewhere nothing is received. *)
Definition dist_gather (d : dist) (gather_list : list (list byte))
    (contribs : option (list (list byte))) : M T (list (list byte)) :=
  emit Gather;;
  sent ← lift contribs;
  if dist_get_rank d =? 0 then
    if bool_decide (length <$> sent = length <$> gather_list)
    then mret sent else raise
  else mret gather_list.

(** Lines 62-70: the serialised size of a payload. *)
Definition serialized_size (data : Payload) : Z :=
  Z.of_nat (length (dumps data)).

(** Lines 76-79: the padding of the local tensor. *)
Definition pad (rank : nat) (max_size : Z) (tensor : list byte)
    : option (list byte) :=
  let local_size := Z.of_nat (length tensor) in
  if bool_decide (local_size ≠ max_size) then
    padding ← ByteTensor rank (max_size - local_size);
    Some (tensor ++ padding)
  else Some tensor.

(** The tensor a rank holds after line 79. *)
Definition padded (max_size : Z) (rank : nat) (x : Payload) : list byte :=
  dumps x ++ uninitialized rank (Z.to_nat (max_size - serialized_size x)).

(** Lines 61-79: serialise, exchange sizes, pad. *)
Definition gather_prepare (d : dist) (group : list Payload)
    (data : Payload) : M T (list Z * Z * list byte) :=
  let world_size := get_world_size d in
  tensor ← pickle_dumps data;
  let local_size := Z.of_nat (length tensor) in
  size_list ← dist_all_gather (replicate world_size 0%Z)
                (contributions d local_size
                   (λ _ x, Some (serialized_size x)) group);
  max_size ← lift (py_max size_list);
  tensor ← lift (pad (dist_get_rank d) max_size tensor);
  mret (size_list, max_size, tensor).

(** Lines 81-90: the gather itself; [None] is the bare [return] of the
    ranks other than 0. *)
Definition gather_exchange (d : dist) (group : list Payload)
    (st : list Z * Z * list byte) : M T (option (list (list byte))) :=
  let '(size_list, max_size, tensor) := st in
  let sent :=
    contributions d tensor (λ r x, pad r max_size (dumps x)) group in
  if is_main_process d then
    tensor_list ← lift (mapM (λ _, ByteTensor (dist_get_rank d) max_size)
                          size_list);
    tensor_list ← dist_gather d tensor_list sent;
    mret (Some tensor_list)
  else
    dist_gather d [] sent;;
    mret None.

(** Lines 92-99: every received tensor goes to [pickle.loads] whole. *)
Definition gather_decode (tensor_list : list (list byte))
    : M T (list Payload) :=
  mapM (λ tensor, let buffer := tensor in pickle_loads buffer) tensor_list.

Definition gather_on_master (d : dist) (group : list Payload)
    (data : Payload) : M T (option (list Payload)) :=
  let world_size := get_world_size d in
  if world_size =? 1 then mret (Some [data])
  else
    st ← gather_prepare d group data;
    received ← gather_exchange d group st;
    match received with
    | None => mret None
    | Some tensor_list =>
        data_list ← gather_decode tensor_list;
        mret (Some data_list)
    end.
End gather.

(** ** [reduce_dict] *)

(** Keys are compared as Python compares [str]: character by character. *)
Definition str_le (s1 s2 : string) : Prop := String.leb s1 s2 = true.

#[global] Instance str_le_dec : RelDecision str_le :=
  λ s1 s2, decide (String.leb s1 s2 = true).

(** [sorted(keys)] *)
Definition sorted (keys : list string) : list string := merge_sort str_le keys.

(** A Python [dict] with [str] keys: the items in insertion order, no key
    twice. *)
Fixpoint dict_get {V} (input_dict : list (string * V)) (k : string)
    : option V :=
  match input_dict with
  | [] => None
  | (k', v) :: rest => if decide (k = k') then Some v else dict_get rest k
  end.

Fixpoint dict_set {V} (input_dict : list (string * V)) (k : string) (v : V)
    : list (string * V) :=
  match input_dict with
  | [] => [(k, v)]
  | (k', v') :: rest =>
      if decide (k = k') then (k', v) :: rest
      else (k', v') :: dict_set rest k v
  end.

(** [{k: v for k, v in items}] *)
Definition dict_of_items {V} (items : list (string * V)) : list (string * V) :=
  foldl (λ acc kv, dict_set acc kv.1 kv.2) [] items.

(** Lines 115-120: the names in sorted order and the value of each. *)
Definition names_values {V} (input_dict : list (string * V))
    : option (list string * list V) :=
  let names := sorted input_dict.*1 in
  values ← mapM (dict_get input_dict) names;
  Some (names, values).

(** The order in which [dist.reduce] adds the contributions of the ranks is
    the backend's: a tree whose leaves are ranks says which partial sums are
    added to which. *)
Inductive schedule :=
  | Leaf (rank : nat)
  | Add (l r : schedule).

Fixpoint leaves (t : schedule) : list nat :=
  match t with
  | Leaf r => [r]
  | Add l r => leaves l ++ leaves r
  end.

(** A schedule for [N] ranks adds the contribution of every rank once. *)
Definition valid_schedule (N : nat) (t : schedule) : Prop :=
  leaves t ≡ₚ seq 0 N.

(** One possible schedule: rank 0 first, then the others in turn. *)
Fixpoint chain (n : nat) : schedule :=
  match n with
  | 0 => Leaf 0
  | S n' => Add (chain n') (Leaf (S n'))
  end.

Definition rank_order (N i : nat) : schedule := chain (pred N).

Section reduce.
Context {T : Type}.
(** Addition of two tensors of the common shape. *)
Variable tadd : T → T → T.
(** [v /= world_size] on a tensor; [None] when the dtype of the tensor does
    not take the result of a true division (integer tensors), in which case
    torch raises. *)
Variable tdiv : T → nat → option T.
(** [order N i] is the schedule the backend follows for position [i] of the
    tensors when [N] ranks contribute. *)
Variable order : nat → nat → schedule.
(** The program does not check that the tensors of the ranks have one
    shape.  [mismatch r cs] is what rank [r] finds in its tensor when the
    contributions [cs] do not fit it, [None] when the call does not return:
    the backend decides, the program does not. *)
Variable mismatch : nat → list (list T) → option (list T).
(** After [dist.reduce] the tensor of a rank other than [dst] holds an
    intermediate that the program does not decide: [partial r cs i] is
    row [i] on rank [r] when the contributions were [cs]. *)
Variable partial : nat → list (list T) → nat → T.

(** [torch.stack(values, dim=0)] copies the values into the rows of a new
    tensor; it raises on an empty list.  The result is the list of the
    references of the rows. *)
Definition torch_stack (values : list nat) : M T (list nat) :=
  h ← get_heap;
  rows ← lift (mapM (λ l, h !! l) values);
  match rows with
  | [] => raise
  | _ => put_heap (h ++ rows);; mret (seq (length h) (length rows))
  end.

(** In-place assignment of the rows [values] of a tensor. *)
Definition write_rows (values : list nat) (rows : list T) : M T unit :=
  h ← get_heap;
  put_heap (foldl (λ h lv, <[lv.1 := lv.2]> h) h (zip values rows)).

Definition read_rows (values : list nat) : M T (list T) :=
  h ← get_heap; lift (mapM (λ l, h !! l) values).

(** The sum of one position: the values [column] of the ranks, added as
    schedule [t] says. *)
Fixpoint run_schedule (t : schedule) (column : list T) : option T :=
  match t with
  | Leaf r => column !! r
  | Add l r =>
      a ← run_schedule l column; b ← run_schedule r column; Some (tadd a b)
  end.

(** What the ranks contribute at position [i], in rank order. *)
Definition column_at (i : nat) (contribs : list (list T)) : option (list T) :=
  mapM (λ c, c !! i) contribs.

(** The sums of the [n] positions of the tensor of rank 0.  There is no
    result when a rank sent no row for a position, or when the schedule
    names a rank that is not in the group. *)
Definition sum_rows (contribs : list (list T)) (n : nat) : option (list T) :=
  mapM (λ i, column ← column_at i contribs;
             run_schedule (order (length contribs) i) column) (seq 0 n).

(** What a rank other than the caller hands to [dist.reduce]: the stack
    of its own values in the order of its own sorted keys. *)
Definition peer_stack (input_dict : list (string * T)) : option (list T) :=
  nv ← names_values input_dict;
  match nv.2 with
  | [] => None
  | _ => Some nv.2
  end.

(** The tensor of [n] rows of rank [r] after [dist.reduce(values, dst=0)] on
    the contributions [contribs].  Rank 0 finds the sums of its own
    positions as long as every rank sent that many rows: what a rank has
    beyond them is not looked at.  On another rank the contributions fit
    when all have [n] rows. *)
Definition reduced_rows (r : nat) (contribs : list (list T)) (n : nat)
    : option (list T) :=
  if r =? 0 then
    if forallb (λ c, n <=? length c) contribs then sum_rows contribs n
    else mismatch r contribs
  else
    if forallb (λ c, length c =? n) contribs
    then Some (partial r contribs <$> seq 0 n)
    else mismatch r contribs.

(** [dist.reduce(values, dst=0)], in place on the rows [values]. *)
Definition dist_reduce (d : dist) (values : list nat)
    (group : list (list (string * T))) : M T unit :=
  local ← read_rows values;
  emit Reduce;;
  contribs ← lift (contributions d local (λ _, peer_stack) group);
  reduced ← lift (reduced_rows (dist_get_rank d) contribs (length local));
  write_rows values reduced.

(** [values /= world_size]: every row is divided, or torch raises and
    nothing is written. *)
Definition idiv (values : list nat) (world_size : nat) : M T unit :=
  rows ← read_rows values;
  divided ← lift (mapM (λ v, tdiv v world_size) rows);
  write_rows values divided.

Definition reduce_dict (d : dist) (group : list (list (string * T)))
    (input_dict : list (string * nat)) (average : bool)
    : M T (list (string * nat)) :=
  let world_size := get_world_size d in
  if world_size <? 2 then mret input_dict
  else
    '(names, values) ← lift (names_values input_dict);
    values ← torch_stack values;
    dist_reduce d values group;;
    (if (dist_get_rank d =? 0) && average
     then idiv values world_size else mret ());;
    let reduced_dict := dict_of_items (zip names values) in
    mret reduced_dict.
End reduce.

(** ** Definitions used to state the properties *)

(** The mapping with its references read in heap [h]. *)
Definition deref {T} (h : list T) (input_dict : list (string * nat))
    : option (list (string * T)) :=
  mapM (λ kl, v ← h !! kl.2; Some (kl.1, v)) input_dict.

(** The values held under key [k] by the mappings of the ranks, in rank
    order. *)
Definition column {T} (k : string) (contents : list (list (string * T)))
    : option (list T) :=
  mapM (λ dct, dict_get dct k) contents.

(** The sum of the values of one key, first rank first. *)
Definition fold_sum {T} (tadd : T → T → T) (vs : list T) : option T :=
  match vs with
  | [] => None
  | v :: vs' => Some (foldl tadd v vs')
  end.

(** In-place division of a binary64 float tensor by the world size. *)
Definition float_div (x : PrimFloat.float) (n : nat) : option PrimFloat.float :=
  Some (PrimFloat.div x (PrimFloat.of_uint63 (Uint63.of_Z (Z.of_nat n)))).

(** In-place true division of an integer tensor: torch raises, the float
    result cannot be written back into an integer tensor. *)
Definition int_idiv (x : Z) (n : nat) : option Z := None.

(** A backend with which [dist.reduce] does not return when the shapes of
    the tensors do not fit. *)
Definition stuck {T} (r : nat) (contribs : list (list T))
    : option (list T) := None.

(** A schedule that adds the other ranks first, the last two first, and
    rank 0 to their sum. *)
Fixpoint chain_right (r n : nat) : schedule :=
  match n with
  | 0 => Leaf r
  | S n' => Add (Leaf r) (chain_right (S r) n')
  end.

Definition peers_first (N i : nat) : schedule := chain_right 0 (pred N).

(** A small codec that frames its output as pickle does: [n] is written as
    [n] bytes [01] and the end mark ['.'] (the STOP opcode of pickle), and
    reading stops at the end mark. *)
Definition toy_dumps (n : nat) : list byte := replicate n x01 ++ [x2e].

Fixpoint toy_loads (buffer : list byte) : option nat :=
  match buffer with
  | x01 :: rest => S <$> toy_loads rest
  | x2e :: _ => Some 0
  | _ => None
  end.

(** A codec that round-trips but has no end mark: the length of the buffer
    is the value. *)
Definition bare_dumps (n : nat) : list byte := replicate n x01.

Definition bare_loads (buffer : list byte) : option nat :=
  if forallb (Byte.eqb x01) buffer then Some (length buffer) else None.

(** The buffers that reached [pickle.loads], in the order of the calls. *)
Definition loads_buffers (cs : list call) : list (list byte) :=
  omap (λ c, match c with PickleLoads b => Some b | _ => None end) cs.

(** The received buffers as step 6 of the specification has them decoded:
    each cut back to the size its rank reported. *)
Definition truncated_buffers (size_list : list Z)
    (tensor_list : list (list byte)) : list (list byte) :=
  zip_with (λ size tensor, take (Z.to_nat size) tensor) size_list tensor_list.

(** The padded buffer as step 4 of the specification has it: the serialised
    payload followed by zero bytes up to [max_size]. *)
Definition zero_padded {Payload} (dumps : Payload → list byte) (max_size : Z)
    (x : Payload) : list byte :=
  dumps x ++ replicate (Z.to_nat (max_size - serialized_size dumps x)) x00.

(** A computation that leaves the tensors of the process alone and only
    adds to its log, whether it returns or not. *)
Definition log_only {T A} (m : M T A) : Prop :=
  ∀ s, heap (m s).2 = heap s ∧ calls s `prefix_of` calls (m s).2.

(** The number of bytes of a list of buffers. *)
Definition total_bytes (buffers : list (list byte)) : nat :=
  sum_list (length <$> buffers).

(** ** [MeshGraphormerDetector] (hand_refiner/__init__.py) *)

(** [x or default] for [x] that is [None] or a [str]: [None] and the empty
    string count as false. *)
Definition str_or (x : option string) (default : string) : string :=
  match x with
  | Some s => if decide (s = "") then default else s
  | None => default
  end.

Section detector.
Context {Device Pipeline Input Kwargs Array Pil Info Other : Type}.

(** The module-level [args] of [hand_refiner.pipeline]: the three fields
    that [from_pretrained] assigns, and the rest. *)
Record Args := MkArgs {
  resume_checkpoint : string;
  hrnet_checkpoint : string;
  device : option Device;
  other_args : Other
}.

(** [custom_hf_download(repo, filename, cache_dir)] and the constructor
    [MeshGraphormerMediapipe(args)] come from modules outside this file;
    [None] stands for an exception. *)
Variable custom_hf_download : string → string → option string → option string.
Variable MeshGraphormerMediapipe : Args → option Pipeline.

(** [from_pretrained]: the detector (which is its pipeline) or an exception,
    and the module-level [args] as the call leaves them. *)
Definition from_pretrained (args : Args) (pretrained_model_or_path : string)
    (filename hrnet_filename cache_dir : option string)
    (device : option Device) : option Pipeline * Args :=
  let filename := str_or filename "graphormer_hand_state_dict.bin" in
  let hrnet_filename :=
    str_or hrnet_filename "hrnetv2_w64_imagenet_pretrained.pth" in
  match custom_hf_download pretrained_model_or_path filename cache_dir with
  | None => (None, args)
  | Some path1 =>
      let args := let 'MkArgs _ h dv o := args in MkArgs path1 h dv o in
      match custom_hf_download pretrained_model_or_path hrnet_filename
              cache_dir with
      | None => (None, args)
      | Some path2 =>
          let args := let 'MkArgs r _ dv o := args in MkArgs r path2 dv o in
          let args := let 'MkArgs r h _ o := args in MkArgs r h device o in
          (MeshGraphormerMediapipe args, args)
      end
  end.

(** The helpers of [__call__], all from outside this file.  A Python value
    that may be [None] is an [option]; a result [None] of a helper stands
    for an exception. *)
Variable common_input_validate :
  Input → option string → Kwargs → option (Array * option string).
Variable get_depth :
  Pipeline → Array → Z → option (option Array * option Array * Info).
Variable zeros_like : Array → Array.
Variable HWC3 : option Array → option Array.
Variable resize_image_with_pad :
  Array → Z → string → option (Array * (Array → option Array)).
Variable fromarray : Array → option Pil.

(** [__call__]: the depth map and the mask, as arrays or as PIL images, and
    the [info] of the pipeline. *)
Definition detector_call (pipeline : Pipeline) (input_image : Input)
    (mask_bbox_padding detect_resolution : Z) (output_type : option string)
    (upscale_method : string) (kwargs : Kwargs)
    : option ((Array + Pil) * (Array + Pil) * Info) :=
  '(input_image, output_type) ←
     common_input_validate input_image output_type kwargs;
  '(depth_map, mask, info) ← get_depth pipeline input_image mask_bbox_padding;
  let '(depth_map, mask) :=
    match depth_map with
    | None => (Some (zeros_like input_image), Some (zeros_like input_image))
    | Some _ => (depth_map, mask)
    end in
  depth_map ← HWC3 depth_map;
  mask ← HWC3 mask;
  '(depth_map, remove_pad) ←
     resize_image_with_pad depth_map detect_resolution upscale_method;
  depth_map ← remove_pad depth_map;
  if bool_decide (output_type = Some "pil") then
    depth_map ← fromarray depth_map;
    mask ← fromarray mask;
    Some (inr depth_map, inr mask, info)
  else Some (inl depth_map, inl mask, info).
End detector.

(** A result of [__call__] that is a numpy array, not a PIL image. *)
Definition is_array {Array Pil} (x : Array + Pil) : Prop :=
  match x with
  | inl _ => True
  | inr _ => False
  end.

(** * Facts about the embedding *)

Section monad_facts.
Context {T : Type}.

Lemma bind_Some {A B} (m : M T A) (f : A → M T B) s a s1 :
  m s = (Some a, s1) → (m ≫= f) s = f a s1.
Proof. intros H. unfold mbind, M_bind. by rewrite H. Qed.

Lemma bind_None {A B} (m : M T A) (f : A → M T B) s s1 :
  m s = (None, s1) → (m ≫= f) s = (None, s1).
Proof. intros H. unfold mbind, M_bind. by rewrite H. Qed.

Lemma lift_Some {A} (o : option A) a (s : proc T) :
  o = Some a → lift o s = (Some a, s).
Proof. by intros ->. Qed.

Lemma bind_ext {A B} (m : M T A) (f g : A → M T B) s :
  (∀ a s1, f a s1 = g a s1) → (m ≫= f) s = (m ≫= g) s.
Proof.
  intros H. unfold mbind, M_bind. by destruct (m s) as [[a|] s1].
Qed.

Lemma bind_ext_l {A B} (m1 m2 : M T A) (f : A → M T B) s :
  m1 s = m2 s → (m1 ≫= f) s = (m2 ≫= f) s.
Proof. intros H. unfold mbind, M_bind. by rewrite H. Qed.

Lemma emit_run c (s : proc T) :
  emit c s = (Some (), Proc (heap s) (calls s ++ [c])).
Proof. done. Qed.
End monad_facts.

(** Runs one step of a [≫=] whose first computation is settled by [lem]. *)
Tactic Notation "mstep" open_constr(lem) :=
  erewrite bind_Some; [| eapply lem ]; cbn beta.

Lemma mapM_id_imap_Some {A B} (g : nat → A → B) (l : list A) :
  mapM id (imap (λ r x, Some (g r x)) l) = Some (imap g l).
Proof.
  revert g. induction l as [|x l IH]; intros g; [done|].
  rewrite !imap_cons. cbn. specialize (IH (g ∘ S)).
  unfold compose in *. by rewrite IH.
Qed.

Lemma contributions_Some {A B} d (local : B) (f : nat → A → option B)
    (g : nat → A → B) (group : list A) :
  (∀ r x, group !! r = Some x → r ≠ dist_get_rank d → f r x = Some (g r x)) →
  contributions d local f group =
    Some (imap (λ r x, if decide (r = dist_get_rank d) then local else g r x)
            group).
Proof.
  intros Hf. unfold contributions. rewrite <- mapM_id_imap_Some. f_equal.
  apply imap_ext. intros r x Hx. cbn. case_decide; [done | by apply Hf].
Qed.

Lemma imap_own {A B} (rank : nat) (g : nat → A → B) (x0 : A) (group : list A) :
  imap (λ r x, if decide (r = rank) then g rank x0 else g r x) group =
  imap g (<[rank := x0]> group).
Proof.
  apply list_eq. intros i. rewrite !list_lookup_imap.
  destruct (decide (i = rank)) as [->|Hne].
  - destruct (decide (rank < length group)) as [Hlt|Hge].
    + rewrite list_lookup_insert_eq by done.
      destruct (lookup_lt_is_Some_2 group rank Hlt) as [x ->].
      cbn [fmap option_fmap option_map]. by repeat case_decide.
    + rewrite list_insert_ge by lia. rewrite lookup_ge_None_2 by lia. done.
  - rewrite list_lookup_insert_ne by done.
    destruct (group !! i); cbn [fmap option_fmap option_map]; [|done].
    by repeat case_decide.
Qed.

Lemma foldl_max_spec (l : list Z) (x : Z) :
  (x ≤ foldl Z.max x l)%Z ∧ Forall (λ y, (y ≤ foldl Z.max x l)%Z) l ∧
  (foldl Z.max x l = x ∨ foldl Z.max x l ∈ l).
Proof.
  revert x. induction l as [|y l IH]; intros x; cbn.
  - repeat split; [lia | constructor | by left].
  - destruct (IH (Z.max x y)) as (H1 & H2 & H3). repeat split.
    + lia.
    + constructor; [lia | done].
    + destruct H3 as [H3|H3].
      * rewrite H3. destruct (Z.max_spec x y) as [[_ ->]|[_ ->]];
          [right; left | by left].
      * right. by right.
Qed.

Lemma py_max_spec (l : list Z) (m : Z) :
  py_max l = Some m → m ∈ l ∧ Forall (λ x, (x ≤ m)%Z) l.
Proof.
  destruct l as [|x l]; [done|]. cbn. intros [= <-].
  destruct (foldl_max_spec l x) as (H1 & H2 & H3). split.
  - destruct H3 as [->|H3]; [left | by right].
  - by constructor.
Qed.

Lemma py_max_is_Some (l : list Z) : l ≠ [] → is_Some (py_max l).
Proof. destruct l; [done | by eexists]. Qed.

(** ** Facts about [gather_on_master] *)

Section gather_facts.
Context {Payload T : Type}.
Variable dumps : Payload → list byte.
Variable loads : list byte → option Payload.
Variable garbage : nat → nat → byte.

Abbreviation size := (serialized_size dumps).
Abbreviation junk := (uninitialized garbage).

Lemma length_uninitialized rank n : length (junk rank n) = n.
Proof. unfold uninitialized. by rewrite length_fmap, length_seq. Qed.

Lemma pad_Some rank max_size x :
  (size x ≤ max_size)%Z →
  pad garbage rank max_size (dumps x) = Some (padded dumps garbage max_size rank x).
Proof.
  intros Hle. unfold pad, padded, serialized_size in *. case_bool_decide as Hne.
  - unfold ByteTensor. rewrite (proj2 (Z.ltb_ge _ _)) by lia. done.
  - rewrite Hne, Z.sub_diag. cbn. by rewrite app_nil_r.
Qed.

Lemma length_padded max_size rank x :
  (size x ≤ max_size)%Z → Z.of_nat (length (padded dumps garbage max_size rank x)) = max_size.
Proof.
  intros Hle. unfold padded, serialized_size in *.
  rewrite length_app, length_uninitialized. lia.
Qed.

Lemma pickle_dumps_run x (s : proc T) :
  pickle_dumps dumps x s =
    (Some (dumps x), Proc (heap s) (calls s ++ [PickleDumps])).
Proof. done. Qed.

Lemma dist_all_gather_run {A} (out received : list A) contribs (s : proc T) :
  contribs = Some received → length out = length received →
  dist_all_gather out contribs s =
    (Some received, Proc (heap s) (calls s ++ [AllGather])).
Proof.
  intros -> Hlen. unfold dist_all_gather.
  mstep emit_run. mstep lift_Some; [|done].
  by rewrite bool_decide_true.
Qed.

(** The sizes every rank receives from the all-gather. *)
Lemma size_contributions d group data :
  contributions d (size data) (λ _ x, Some (size x)) group =
    Some (size <$> <[dist_get_rank d := data]> group).
Proof.
  rewrite (contributions_Some d _ _ (λ _ x, size x)) by done. f_equal.
  rewrite (imap_own (dist_get_rank d) (λ _ x, size x)).
  apply (imap_const size).
Qed.

Lemma gather_prepare_run d group data (s : proc T) :
  length group = get_world_size d → dist_get_rank d < length group →
  ∃ max_size,
    py_max (size <$> <[dist_get_rank d := data]> group) = Some max_size ∧
    gather_prepare dumps garbage d group data s =
      (Some (size <$> <[dist_get_rank d := data]> group, max_size,
             padded dumps garbage max_size (dist_get_rank d) data),
       Proc (heap s) (calls s ++ [PickleDumps; AllGather])).
Proof.
  intros Hlen Hrank.
  set (group' := <[dist_get_rank d := data]> group).
  assert (Hin : size data ∈ size <$> group').
  { apply list_elem_of_fmap. exists data. split; [done|].
    apply list_elem_of_lookup. exists (dist_get_rank d).
    by apply list_lookup_insert_eq. }
  destruct (py_max_is_Some (size <$> group')) as [max_size Hmax].
  { intros Hnil. rewrite Hnil in Hin. by apply elem_of_nil in Hin. }
  exists max_size. split; [done|].
  destruct (py_max_spec _ _ Hmax) as [_ Hle].
  rewrite Forall_forall in Hle. specialize (Hle _ Hin).
  unfold gather_prepare.
  mstep pickle_dumps_run.
  mstep dist_all_gather_run; [| apply size_contributions |].
  2:{ rewrite length_replicate, length_fmap, length_insert. lia. }
  mstep lift_Some; [| exact Hmax].
  mstep lift_Some; [| by apply pad_Some].
  cbn. by rewrite <- app_assoc.
Qed.

Lemma peer_contributions d group data max_size :
  Forall (λ z, (z ≤ max_size)%Z) (size <$> <[dist_get_rank d := data]> group) →
  contributions d (padded dumps garbage max_size (dist_get_rank d) data)
    (λ r x, pad garbage r max_size (dumps x)) group =
  Some (imap (padded dumps garbage max_size) (<[dist_get_rank d := data]> group)).
Proof.
  intros Hle. rewrite (contributions_Some d _ _ (padded dumps garbage max_size)).
  - by rewrite (imap_own (dist_get_rank d) (padded dumps garbage max_size)).
  - intros r x Hx Hr. apply pad_Some.
    rewrite Forall_fmap, Forall_lookup in Hle. apply (Hle r). cbn.
    by rewrite list_lookup_insert_ne.
Qed.

Lemma Forall_length_padded max_size (group : list Payload) :
  Forall (λ z, (z ≤ max_size)%Z) (size <$> group) →
  Forall (λ b, length b = Z.to_nat max_size) (imap (padded dumps garbage max_size) group).
Proof.
  rewrite Forall_fmap, !Forall_lookup. intros Hle i b.
  rewrite list_lookup_imap. destruct (group !! i) as [x|] eqn:Hx; [|done].
  cbn. intros [= <-]. specialize (Hle i x Hx). cbn in Hle.
  pose proof (length_padded max_size i x Hle). lia.
Qed.

Lemma alloc_slots rank max_size (size_list : list Z) :
  (0 ≤ max_size)%Z →
  mapM (λ _, ByteTensor garbage rank max_size) size_list =
    Some (replicate (length size_list) (junk rank (Z.to_nat max_size))).
Proof.
  intros Hpos. induction size_list as [|z l IH]; [done|].
  cbn. rewrite IH. unfold ByteTensor.
  by rewrite (proj2 (Z.ltb_ge _ _)) by lia.
Qed.

Lemma fmap_length_const {A} (l : list (list A)) n :
  Forall (λ b, length b = n) l → length <$> l = replicate (length l) n.
Proof. induction 1 as [|b l Hb _ IH]; [done|]. cbn. by rewrite Hb, IH. Qed.

Lemma dist_gather_main d gather_list sent contribs (s : proc T) :
  dist_get_rank d = 0 → contribs = Some sent →
  length <$> sent = length <$> gather_list →
  dist_gather d gather_list contribs s =
    (Some sent, Proc (heap s) (calls s ++ [Gather])).
Proof.
  intros Hr -> Hlen. unfold dist_gather.
  mstep emit_run. mstep lift_Some; [|done].
  by rewrite Hr, bool_decide_true.
Qed.

Lemma dist_gather_other d gather_list sent contribs (s : proc T) :
  dist_get_rank d ≠ 0 → contribs = Some sent →
  dist_gather d gather_list contribs s =
    (Some gather_list, Proc (heap s) (calls s ++ [Gather])).
Proof.
  intros Hr -> . unfold dist_gather.
  mstep emit_run. mstep lift_Some; [|done].
  by rewrite (proj2 (Nat.eqb_neq _ _) Hr).
Qed.

(** Lines 81-90 once the sizes are known and no size exceeds [max_size]. *)
Lemma gather_exchange_run d group data max_size (s : proc T) :
  let group' := <[dist_get_rank d := data]> group in
  get_rank d = dist_get_rank d →
  Forall (λ z, (z ≤ max_size)%Z) (size <$> group') → (0 ≤ max_size)%Z →
  gather_exchange dumps garbage d group
    (size <$> group', max_size, padded dumps garbage max_size (dist_get_rank d) data) s =
  (Some (if decide (dist_get_rank d = 0)
         then Some (imap (padded dumps garbage max_size) group') else None),
   Proc (heap s) (calls s ++ [Gather])).
Proof.
  intros group' Hrk Hle Hpos. unfold gather_exchange, is_main_process.
  rewrite Hrk. destruct (decide (dist_get_rank d = 0)) as [Hr|Hr].
  - rewrite (proj2 (Nat.eqb_eq _ _) Hr).
    mstep lift_Some; [| by apply alloc_slots].
    mstep dist_gather_main; [done | done | by apply peer_contributions |].
    rewrite (fmap_length_const _ (Z.to_nat max_size))
      by by apply Forall_length_padded.
    rewrite (fmap_length_const (replicate _ _) (Z.to_nat max_size)).
    + by rewrite length_imap, length_replicate, length_fmap.
    + apply Forall_replicate. apply length_uninitialized.
  - rewrite (proj2 (Nat.eqb_neq _ _) Hr).
    mstep dist_gather_other; [done | done | by apply peer_contributions].
Qed.

Lemma pickle_loads_run buffer x (s : proc T) :
  loads buffer = Some x →
  pickle_loads loads buffer s =
    (Some x, Proc (heap s) (calls s ++ [PickleLoads buffer])).
Proof. intros H. unfold pickle_loads. mstep emit_run. by apply lift_Some. Qed.

Lemma gather_decode_run tensor_list data_list (s : proc T) :
  Forall2 (λ b x, loads b = Some x) tensor_list data_list →
  gather_decode loads tensor_list s =
    (Some data_list,
     Proc (heap s) (calls s ++ (PickleLoads <$> tensor_list))).
Proof.
  intros H. revert s. unfold gather_decode.
  induction H as [|b x bs xs Hb _ IH]; intros s.
  - cbn. rewrite app_nil_r. by destruct s.
  - cbn [mapM]. mstep pickle_loads_run; [| exact Hb].
    mstep IH. cbn. by rewrite <- app_assoc.
Qed.

(** Whatever the codec, the outcome of lines 92-99 is that of decoding
    every buffer in turn. *)
Lemma gather_decode_outcome tensor_list (s : proc T) :
  (gather_decode loads tensor_list s).1 = mapM loads tensor_list.
Proof.
  revert s. unfold gather_decode.
  induction tensor_list as [|b bs IH]; intros s; [done|].
  cbn [mapM]. unfold mbind at 1, M_bind at 1. unfold pickle_loads at 1.
  unfold mbind at 1, M_bind at 1. cbn [emit lift].
  destruct (loads b) as [x|]; cbn; [|done].
  unfold mbind at 1, M_bind at 1.
  specialize (IH (Proc (heap s) (calls s ++ [PickleLoads b]))).
  rewrite <- IH.
  by destruct (mapM (M:=M T) _ bs (Proc _ _)) as [[xs|] s'].
Qed.
End gather_facts.

Lemma toy_framing n rest : toy_loads (toy_dumps n ++ rest) = Some n.
Proof.
  unfold toy_dumps. induction n as [|n IH]; [done|].
  cbn in *. by rewrite IH.
Qed.

Section gather_stages.
Context {Payload T : Type}.
Variable dumps : Payload → list byte.
Variable loads : list byte → option Payload.
Variable garbage : nat → nat → byte.

Lemma group_max_nonneg (group : list Payload) max_size :
  py_max (serialized_size dumps <$> group) = Some max_size → (0 ≤ max_size)%Z.
Proof.
  intros Hmax. destruct (py_max_spec _ _ Hmax) as [Hin _].
  apply list_elem_of_fmap in Hin as (x & -> & _). unfold serialized_size. lia.
Qed.

(** The whole of [gather_on_master] in a group of [N ≥ 2] processes, down to
    the decoding of the received buffers. *)
Lemma gather_on_master_stages N r (group : list Payload) data (s : proc T) :
  2 ≤ N → r < N → length group = N →
  let group' := <[r := data]> group in
  let s1 := Proc (heap s) (calls s ++ [PickleDumps; AllGather; Gather]) in
  ∃ max_size,
    py_max (serialized_size dumps <$> group') = Some max_size ∧
    gather_on_master dumps loads garbage (group_dist N r) group data s =
      if decide (r = 0) then
        let (o, s2) :=
          gather_decode loads (imap (padded dumps garbage max_size) group') s1
        in (Some <$> o, s2)
      else (Some None, s1).
Proof.
  intros HN Hr Hlen group' s1.
  destruct (gather_prepare_run dumps garbage (group_dist N r) group data s)
    as (max_size & Hmax & Hprep); [done | cbn; lia |].
  cbn [dist_get_rank group_dist] in *. fold group' in Hmax, Hprep.
  exists max_size. split; [done|].
  destruct (py_max_spec _ _ Hmax) as [_ Hle].
  pose proof (group_max_nonneg _ _ Hmax) as Hpos.
  unfold gather_on_master. cbn [get_world_size group_dist is_available
    is_initialized negb dist_get_world_size].
  rewrite (proj2 (Nat.eqb_neq N 1)) by lia.
  mstep Hprep.
  mstep (gather_exchange_run dumps garbage (group_dist N r));
    [| done | done | done].
  cbn [dist_get_rank group_dist heap calls]. rewrite <- app_assoc. cbn [app].
  fold group' s1.
  destruct (decide (r = 0)) as [->|Hne]; [|done].
  unfold mbind at 1, M_bind at 1.
  by destruct (gather_decode _ _ _) as [[xs|] s2].
Qed.
End gather_stages.

Lemma padded_decodes {Payload} (dumps : Payload → list byte) loads garbage
    max_size (group : list Payload) :
  (∀ x rest, loads (dumps x ++ rest) = Some x) →
  Forall2 (λ b x, loads b = Some x) (imap (padded dumps garbage max_size) group)
    group.
Proof.
  intros Hframe. apply Forall2_same_length_lookup_2.
  - by rewrite length_imap.
  - intros i b x. rewrite list_lookup_imap. intros Hb Hx.
    rewrite Hx in Hb. cbn in Hb. injection Hb as <-. apply Hframe.
Qed.

(** C1: in a group of N >= 2 processes whose codec reads a pickle up to
    its end mark and ignores what follows, [gather_on_master] returns on
    rank 0 the N payloads in rank order, each exactly as the rank of that
    index supplied it (padding never reaches the decoded values), and
    returns [None] on every other rank. *)
Theorem gather_on_master_group {Payload T} (dumps : Payload → list byte)
    (loads : list byte → option Payload) (garbage : nat → nat → byte)
    (N : nat) (group : list Payload) (data : Payload) (s : proc T) :
  (∀ x rest, loads (dumps x ++ rest) = Some x) →
  2 ≤ N → length group = N →
  (gather_on_master dumps loads garbage (group_dist N 0) group data s).1
    = Some (Some (<[0 := data]> group)) ∧
  length (<[0 := data]> group) = N ∧
  ∀ r, 0 < r < N →
    (gather_on_master dumps loads garbage (group_dist N r) group data s).1
      = Some None.
Proof.
  intros Hframe HN Hlen. split; [|split].
  - destruct (gather_on_master_stages dumps loads garbage N 0 group data s)
      as (max_size & _ & ->); [done | lia | done |].
    rewrite decide_True by done.
    erewrite gather_decode_run; [done|]. by apply padded_decodes.
  - by rewrite length_insert.
  - intros r Hr.
    destruct (gather_on_master_stages dumps loads garbage N r group data s)
      as (max_size & _ & ->); [done | lia | done |].
    by rewrite decide_False by lia.
Qed.

Lemma gather_on_master_group_witness :
  (gather_on_master toy_dumps toy_loads (λ _ _, xff) (group_dist 3 0)
     [2; 0; 1] 2 (Proc (T:=unit) [] [])).1 = Some (Some [2; 0; 1]) ∧
  (gather_on_master toy_dumps toy_loads (λ _ _, xff) (group_dist 3 2)
     [2; 0; 1] 1 (Proc (T:=unit) [] [])).1 = Some None.
Proof.
  destruct (gather_on_master_group toy_dumps toy_loads (λ _ _, xff) 3
              [2; 0; 1] 2 (Proc (T:=unit) [] []))
    as (H0 & _ & Hr); [apply toy_framing | lia | reflexivity |].
  split; [exact H0|].
  destruct (gather_on_master_group toy_dumps toy_loads (λ _ _, xff) 3
              [2; 0; 1] 1 (Proc (T:=unit) [] []))
    as (_ & _ & Hr'); [apply toy_framing | lia | reflexivity |].
  apply Hr'. lia.
Defined.

Lemma bare_roundtrip n : bare_loads (bare_dumps n) = Some n.
Proof.
  unfold bare_loads, bare_dumps.
  replace (forallb (Byte.eqb x01) (replicate n x01)) with true.
  - by rewrite length_replicate.
  - induction n as [|n IH]; [done|]. cbn. by rewrite <- IH.
Qed.

(** Round-tripping alone does not make [gather_on_master] return the
    payloads: the buffers are decoded with their padding, so a codec without
    an end mark reads the padding as content. *)
Example bare_codec_reads_padding :
  (gather_on_master bare_dumps bare_loads (λ _ _, x01) (group_dist 2 0)
     [0; 2] 0 (Proc (T:=unit) [] [])).1 = Some (Some [2; 2]) ∧
  (gather_on_master bare_dumps bare_loads (λ _ _, x00) (group_dist 2 0)
     [0; 2] 0 (Proc (T:=unit) [] [])).1 = None.
Proof. split; reflexivity. Qed.

(** [synchronize] does nothing when the world size is 1. *)
Lemma synchronize_single {T} (d : dist) (arrived : bool) (s : proc T) :
  get_world_size d = 1 → synchronize d arrived s = (Some (), s).
Proof.
  unfold get_world_size, synchronize.
  destruct (is_available d), (is_initialized d); cbn; try done.
  by intros ->.
Qed.

(** C6: when the world size is 1, [gather_on_master] returns [[x]] and
    leaves the process as it found it: nothing is pickled, no collective
    is called, whatever the codec and the group are. *)
Theorem gather_on_master_single {Payload T} (dumps : Payload → list byte)
    (loads : list byte → option Payload) (garbage : nat → nat → byte)
    (d : dist) (group : list Payload) (x : Payload) (s : proc T) :
  get_world_size d = 1 →
  gather_on_master dumps loads garbage d group x s = (Some (Some [x]), s).
Proof. intros H. unfold gather_on_master. by rewrite H. Qed.

Lemma gather_on_master_single_witness :
  get_world_size (Dist true false 8 3) = 1 ∧
  gather_on_master toy_dumps toy_loads (λ _ _, xff) (Dist true false 8 3)
    [] 5 (Proc (T:=unit) [] []) = (Some (Some [5]), Proc [] []).
Proof.
  split; [reflexivity|].
  apply (gather_on_master_single toy_dumps toy_loads (λ _ _, xff)
           (Dist true false 8 3) [] 5 (Proc (T:=unit) [] [])).
  reflexivity.
Defined.

(** C9: on every rank of the group the size all-gather returns a list whose
    entry at the rank's own index is the local serialised size, so the
    maximum is at least the local size, the length of the padding is not
    negative, the tensor is left alone when the local size is the maximum,
    and after lines 76-79 the tensor has exactly [max_size] bytes. *)
Theorem gather_padding_safe {Payload T} (dumps : Payload → list byte)
    (garbage : nat → nat → byte) (d : dist) (group : list Payload)
    (data : Payload) (s : proc T) :
  length group = get_world_size d → dist_get_rank d < get_world_size d →
  let local_size := serialized_size dumps data in
  ∃ size_list max_size tensor s',
    gather_prepare dumps garbage d group data s
      = (Some (size_list, max_size, tensor), s') ∧
    size_list !! dist_get_rank d = Some local_size ∧
    py_max size_list = Some max_size ∧
    (local_size ≤ max_size)%Z ∧
    (0 ≤ max_size - local_size)%Z ∧
    is_Some (ByteTensor garbage (dist_get_rank d) (max_size - local_size)) ∧
    pad garbage (dist_get_rank d) max_size (dumps data) = Some tensor ∧
    (local_size = max_size → tensor = dumps data) ∧
    (tensor ≠ dumps data → local_size ≠ max_size) ∧
    Z.of_nat (length tensor) = max_size.
Proof.
  intros Hlen Hr local_size.
  destruct (gather_prepare_run dumps garbage d group data s)
    as (max_size & Hmax & Hprep); [done | lia |].
  set (group' := <[dist_get_rank d := data]> group) in *.
  assert (Hown : (serialized_size dumps <$> group') !! dist_get_rank d
                 = Some local_size).
  { rewrite list_lookup_fmap. unfold group'.
    rewrite list_lookup_insert_eq by lia. done. }
  destruct (py_max_spec _ _ Hmax) as [_ Hle].
  rewrite Forall_lookup in Hle. specialize (Hle _ _ Hown).
  assert (Hsame : local_size = max_size →
                  padded dumps garbage max_size (dist_get_rank d) data
                  = dumps data).
  { intros Heq. unfold padded. fold local_size. rewrite Heq, Z.sub_diag.
    cbn. by rewrite app_nil_r. }
  eexists _, max_size, _, _. split; [exact Hprep|].
  repeat split; try done; try lia.
  - unfold ByteTensor. rewrite (proj2 (Z.ltb_ge _ _)) by lia. by eexists.
  - by apply pad_Some.
  - intros Hne Heq. by apply Hne, Hsame.
  - by apply length_padded.
Qed.

Lemma gather_padding_safe_witness :
  ∃ tensor s',
    gather_prepare toy_dumps (λ _ _, xff) (group_dist 3 1) [2; 0; 1] 0
      (Proc (T:=unit) [] []) = (Some ([3; 1; 2]%Z, 3%Z, tensor), s') ∧
    length tensor = 3.
Proof.
  destruct (gather_padding_safe toy_dumps (λ _ _, xff) (group_dist 3 1)
              [2; 0; 1] 0 (Proc (T:=unit) [] []))
    as (sl & m & t & s' & Hrun & _ & _ & _ & _ & _ & _ & _ & _ & Hlen);
    [reflexivity | cbn; lia |].
  pose proof Hrun as Hc. vm_compute in Hc. injection Hc as <- <- <- <-.
  eexists _, _. split; [exact Hrun | reflexivity].
Defined.

(** C3, as the code has it: the padding is [max_size - local_size] bytes of
    an uninitialised allocation, whatever they hold.  Every rank hands to
    the gather its serialised payload followed by that padding, and all
    these tensors have [max_size] bytes. *)
Theorem gather_pads_to_max {Payload T} (dumps : Payload → list byte)
    (garbage : nat → nat → byte) (d : dist) (group : list Payload)
    (data : Payload) (s : proc T) :
  length group = get_world_size d → dist_get_rank d < get_world_size d →
  let group' := <[dist_get_rank d := data]> group in
  ∃ max_size tensor s',
    py_max (serialized_size dumps <$> group') = Some max_size ∧
    gather_prepare dumps garbage d group data s
      = (Some (serialized_size dumps <$> group', max_size, tensor), s') ∧
    tensor = dumps data ++
      uninitialized garbage (dist_get_rank d)
        (Z.to_nat (max_size - serialized_size dumps data)) ∧
    contributions d tensor (λ r x, pad garbage r max_size (dumps x)) group
      = Some (imap (λ r x, dumps x ++
                uninitialized garbage r
                  (Z.to_nat (max_size - serialized_size dumps x))) group') ∧
    Forall (λ b, Z.of_nat (length b) = max_size)
      (imap (λ r x, dumps x ++
                uninitialized garbage r
                  (Z.to_nat (max_size - serialized_size dumps x))) group').
Proof.
  intros Hlen Hr group'.
  destruct (gather_prepare_run dumps garbage d group data s)
    as (max_size & Hmax & Hprep); [done | lia |].
  fold group' in Hmax, Hprep.
  destruct (py_max_spec _ _ Hmax) as [_ Hle].
  pose proof (group_max_nonneg _ _ _ Hmax) as Hpos.
  eexists max_size, _, _. split; [done|]. split; [exact Hprep|].
  split; [done|]. split.
  - by apply peer_contributions.
  - eapply Forall_impl; [by apply Forall_length_padded|].
    cbn. intros b Hb. lia.
Qed.

Lemma gather_pads_to_max_witness :
  contributions (group_dist 3 1) [x2e; xff; xff]
    (λ r x, pad (λ _ _, xff) r 3 (toy_dumps x)) [2; 0; 1]
  = Some [[x01; x01; x2e]; [x2e; xff; xff]; [x01; x2e; xff]].
Proof.
  destruct (gather_pads_to_max toy_dumps (λ _ _, xff) (group_dist 3 1)
              [2; 0; 1] 0 (Proc (T:=unit) [] []))
    as (m & t & s' & Hmax & _ & Ht & Hsent & _);
    [reflexivity | cbn; lia |].
  vm_compute in Hmax. injection Hmax as <-.
  vm_compute in Ht. subst t. rewrite Hsent. reflexivity.
Defined.

(** C3 as stated fails: with an allocator that does not return zeros the
    padding of rank 0 is not made of zero bytes. *)
Lemma gather_padding_not_zero :
  gather_prepare toy_dumps (λ _ _, xff) (group_dist 2 0) [0; 2] 0
    (Proc (T:=unit) [] [])
  = (Some ([1; 3]%Z, 3%Z, [x2e; xff; xff]), Proc [] [PickleDumps; AllGather]) ∧
  zero_padded toy_dumps 3 0 = [x2e; x00; x00] ∧
  [x2e; xff; xff] ≠ zero_padded toy_dumps 3 0.
Proof. split; [reflexivity|]. split; [reflexivity|]. discriminate. Qed.

(** C2, as the code has it: rank 0 hands every received tensor whole to
    [pickle.loads], all [max_size] bytes of it (the serialised payload of
    the rank followed by that rank's padding; the gathered sizes serve for
    the maximum only), and returns the decoded values in rank order. *)
Theorem gather_on_master_decodes_whole {Payload T}
    (dumps : Payload → list byte) (loads : list byte → option Payload)
    (garbage : nat → nat → byte) (N : nat) (group : list Payload)
    (data : Payload) (s : proc T) :
  2 ≤ N → length group = N →
  let group' := <[0 := data]> group in
  let run := gather_on_master dumps loads garbage (group_dist N 0) group data s in
  ∃ max_size tensor_list,
    py_max (serialized_size dumps <$> group') = Some max_size ∧
    tensor_list =
      imap (λ r x, dumps x ++
              uninitialized garbage r
                (Z.to_nat (max_size - serialized_size dumps x))) group' ∧
    length tensor_list = N ∧
    Forall (λ b, Z.of_nat (length b) = max_size) tensor_list ∧
    run.1 = Some <$> mapM loads tensor_list ∧
    (is_Some (mapM loads tensor_list) →
     calls run.2 = calls s ++ [PickleDumps; AllGather; Gather]
                     ++ (PickleLoads <$> tensor_list)).
Proof.
  intros HN Hlen group' run.
  destruct (gather_on_master_stages dumps loads garbage N 0 group data s)
    as (max_size & Hmax & Hrun); [done | lia | done |].
  fold group' in Hmax, Hrun. fold run in Hrun.
  rewrite decide_True in Hrun by done.
  destruct (py_max_spec _ _ Hmax) as [_ Hle].
  exists max_size, (imap (padded dumps garbage max_size) group').
  split; [done|]. split; [done|]. split.
  { unfold group'. by rewrite length_imap, length_insert. }
  split.
  { eapply Forall_impl; [by apply Forall_length_padded|].
    pose proof (group_max_nonneg _ _ _ Hmax). cbn. intros b Hb. lia. }
  split.
  - rewrite Hrun.
    rewrite <- (gather_decode_outcome loads _
      (Proc (heap s) (calls s ++ [PickleDumps; AllGather; Gather]))).
    by destruct (gather_decode _ _ _) as [[xs|] s2].
  - intros [xs Hxs]. rewrite Hrun.
    erewrite gather_decode_run; [| by apply mapM_Some_1].
    cbn. by rewrite <- app_assoc.
Qed.

Lemma gather_on_master_decodes_whole_witness :
  calls (gather_on_master toy_dumps toy_loads (λ _ _, xff) (group_dist 2 0)
           [0; 2] 0 (Proc (T:=unit) [] [])).2
  = [PickleDumps; AllGather; Gather;
     PickleLoads [x2e; xff; xff]; PickleLoads [x01; x01; x2e]].
Proof.
  destruct (gather_on_master_decodes_whole toy_dumps toy_loads (λ _ _, xff)
              2 [0; 2] 0 (Proc (T:=unit) [] []))
    as (m & tl & Hmax & Htl & _ & _ & _ & Hcalls); [lia | reflexivity |].
  vm_compute in Hmax. injection Hmax as <-. vm_compute in Htl. subst tl.
  rewrite Hcalls; [reflexivity | by eexists].
Defined.

(** C2 as stated fails: the buffer of rank 0, reported with 1 byte, reaches
    [pickle.loads] with the 3 bytes of the longest one. *)
Lemma gather_on_master_no_truncation :
  let run := gather_on_master toy_dumps toy_loads (λ _ _, x00)
               (group_dist 2 0) [0; 2] 0 (Proc (T:=unit) [] []) in
  run.1 = Some (Some [0; 2]) ∧
  loads_buffers (calls run.2) = [[x2e; x00; x00]; [x01; x01; x2e]] ∧
  truncated_buffers [1; 3]%Z [[x2e; x00; x00]; [x01; x01; x2e]]
    = [[x2e]; [x01; x01; x2e]] ∧
  loads_buffers (calls run.2)
    ≠ truncated_buffers [1; 3]%Z [[x2e; x00; x00]; [x01; x01; x2e]].
Proof. repeat split; try reflexivity. discriminate. Qed.

(** ** The order of the keys *)

Lemma string_compare_trans (s1 s2 s3 : string) :
  String.compare s1 s2 ≠ Gt → String.compare s2 s3 ≠ Gt →
  String.compare s1 s3 ≠ Gt.
Proof.
  revert s2 s3. induction s1 as [|a s1 IH]; intros [|b s2] [|c s3]; cbn;
    try done.
  unfold Ascii.compare.
  destruct (N.compare_spec (Ascii.N_of_ascii a) (Ascii.N_of_ascii b)) as [E1|L1|G1];
    destruct (N.compare_spec (Ascii.N_of_ascii b) (Ascii.N_of_ascii c)) as [E2|L2|G2];
    destruct (N.compare_spec (Ascii.N_of_ascii a) (Ascii.N_of_ascii c)) as [E3|L3|G3];
    try done; try lia.
  apply IH.
Qed.

#[global] Instance str_le_trans : Transitive str_le.
Proof.
  intros s1 s2 s3. unfold str_le, String.leb. intros H12 H23.
  pose proof (string_compare_trans s1 s2 s3) as H.
  destruct (String.compare s1 s2), (String.compare s2 s3),
    (String.compare s1 s3); try done; exfalso; by apply H.
Qed.

#[global] Instance str_le_total : Total str_le.
Proof. intros s1 s2. apply String.leb_total. Qed.

#[global] Instance str_le_antisym : AntiSymm (=) str_le.
Proof. intros s1 s2. apply String.leb_antisym. Qed.

Lemma sorted_Permutation (keys : list string) : sorted keys ≡ₚ keys.
Proof. apply merge_sort_Permutation. Qed.

Lemma sorted_perm_eq (keys1 keys2 : list string) :
  keys1 ≡ₚ keys2 → sorted keys1 = sorted keys2.
Proof.
  intros Hp. apply (StronglySorted_unique str_le).
  - apply StronglySorted_merge_sort; apply _.
  - apply StronglySorted_merge_sort; apply _.
  - by rewrite !sorted_Permutation.
Qed.

(** ** Dictionaries *)

Lemma dict_get_Some {V} (d : list (string * V)) k v :
  NoDup d.*1 → dict_get d k = Some v ↔ (k, v) ∈ d.
Proof.
  induction d as [|[k' v'] d IH]; cbn.
  - intros _. split; [done | by intros ?%elem_of_nil].
  - intros [Hk' Hnd]%NoDup_cons. case_decide as Hk.
    + subst k'. split.
      * intros [= ->]. by left.
      * intros [[= ->]|Hin]%elem_of_cons; [done|].
        destruct Hk'. apply list_elem_of_fmap. by exists (k, v).
    + rewrite IH by done. split; [by right|].
      intros [[= -> ->]|Hin]%elem_of_cons; done.
Qed.

Lemma dict_get_is_Some {V} (d : list (string * V)) k :
  k ∈ d.*1 → is_Some (dict_get d k).
Proof.
  induction d as [|[k' v'] d IH]; cbn.
  - by intros ?%elem_of_nil.
  - intros Hin. case_decide; [by eexists|].
    apply IH. by apply elem_of_cons in Hin as [?|?].
Qed.

Lemma dict_get_perm {V} (d1 d2 : list (string * V)) k :
  NoDup d1.*1 → d1 ≡ₚ d2 → dict_get d1 k = dict_get d2 k.
Proof.
  intros Hnd Hp.
  assert (Hnd2 : NoDup d2.*1) by by rewrite <- Hp.
  apply option_eq. intros v. rewrite !dict_get_Some by done. by rewrite Hp.
Qed.

Lemma names_values_perm {V} (d1 d2 : list (string * V)) :
  NoDup d1.*1 → d1 ≡ₚ d2 → names_values d1 = names_values d2.
Proof.
  intros Hnd Hp. unfold names_values.
  rewrite (sorted_perm_eq d1.*1 d2.*1) by by rewrite Hp.
  by rewrite (mapM_ext _ (dict_get d2)) by (intros k; by apply dict_get_perm).
Qed.

(** The loop of lines 118-120 never fails on a dictionary: it yields the
    sorted keys and, for each, the value stored under it. *)
Lemma names_values_Some {V} (d : list (string * V)) :
  ∃ values, names_values d = Some (sorted d.*1, values) ∧
    Forall2 (λ k v, dict_get d k = Some v) (sorted d.*1) values.
Proof.
  unfold names_values.
  destruct (mapM (dict_get d) (sorted d.*1)) as [values|] eqn:Hm.
  - exists values. split; [done|]. by apply mapM_Some_1.
  - apply mapM_None_1, Exists_exists in Hm as (k & Hk & Hnone).
    rewrite sorted_Permutation in Hk.
    apply dict_get_is_Some in Hk as [v Hv]. congruence.
Qed.

Lemma contributions_Forall2 {A B} d (local : B) (f : nat → A → option B)
    (group1 group2 : list A) :
  Forall2 (λ x y, ∀ r, f r x = f r y) group1 group2 →
  contributions d local f group1 = contributions d local f group2.
Proof.
  intros H. unfold contributions. f_equal. apply list_eq. intros i.
  rewrite !list_lookup_imap. rewrite Forall2_lookup in H.
  destruct (H i) as [x y Hxy|]; [|done]. cbn. by rewrite Hxy.
Qed.

Section reduce_facts.
Context {T : Type}.
Variable tadd : T → T → T.
Variable tdiv : T → nat → option T.
Variable order : nat → nat → schedule.
Variable mismatch : nat → list (list T) → option (list T).
Variable partial : nat → list (list T) → nat → T.

Lemma peer_stack_perm (d1 d2 : list (string * T)) :
  NoDup d1.*1 → d1 ≡ₚ d2 → peer_stack d1 = peer_stack d2.
Proof. intros Hnd Hp. unfold peer_stack. by rewrite (names_values_perm d1 d2). Qed.

Lemma reduce_dict_perm d (group1 group2 : list (list (string * T)))
    (input1 input2 : list (string * nat)) average (s : proc T) :
  2 ≤ get_world_size d →
  NoDup input1.*1 → input1 ≡ₚ input2 →
  Forall2 (λ m1 m2, NoDup m1.*1 ∧ m1 ≡ₚ m2) group1 group2 →
  reduce_dict tadd tdiv order mismatch partial d group1 input1 average s =
  reduce_dict tadd tdiv order mismatch partial d group2 input2 average s.
Proof.
  intros Hws Hnd Hp Hg. unfold reduce_dict.
  rewrite (names_values_perm input1 input2) by done.
  rewrite (proj2 (Nat.ltb_ge _ _)) by done.
  apply bind_ext. intros [names values] s1.
  apply bind_ext. intros rows s2.
  apply bind_ext_l. unfold dist_reduce.
  apply bind_ext. intros local s3.
  apply bind_ext. intros _ s4.
  apply bind_ext_l. f_equal.
  apply contributions_Forall2.
  eapply Forall2_impl; [exact Hg|]. cbn. intros m1 m2 [? ?] _.
  by apply peer_stack_perm.
Qed.
End reduce_facts.

(** C7: when the world size is below 2, [reduce_dict] returns its argument
    itself, with [average] set or not, and leaves the process as it found
    it: no tensor is written, no collective is called. *)
Theorem reduce_dict_single {T} (tadd : T → T → T)
    (tdiv : T → nat → option T) (order : nat → nat → schedule)
    (mismatch : nat → list (list T) → option (list T))
    (partial : nat → list (list T) → nat → T) (d : dist)
    (group : list (list (string * T))) (input_dict : list (string * nat))
    (average : bool) (s : proc T) :
  get_world_size d < 2 →
  reduce_dict tadd tdiv order mismatch partial d group input_dict average s
    = (Some input_dict, s).
Proof.
  intros H. unfold reduce_dict.
  by rewrite (proj2 (Nat.ltb_lt _ _) H).
Qed.

Lemma reduce_dict_single_witness :
  reduce_dict Z.add int_idiv rank_order stuck (λ _ _ _, 0%Z)
    (Dist false false 4 2) [] [("b", 1); ("a", 0)] true (Proc [10; 20]%Z [])
  = (Some [("b", 1); ("a", 0)], Proc [10; 20]%Z []) ∧
  reduce_dict Z.add int_idiv rank_order stuck (λ _ _ _, 0%Z)
    (group_dist 1 0) [] [("b", 1); ("a", 0)] false (Proc [10; 20]%Z [])
  = (Some [("b", 1); ("a", 0)], Proc [10; 20]%Z []).
Proof.
  split; apply reduce_dict_single; cbn; lia.
Defined.

(** ** The heap *)

Section heap_facts.
Context {T : Type}.
Implicit Types (h : list T) (s : proc T).

Lemma read_block h rows :
  mapM (λ l, (h ++ rows) !! l) (seq (length h) (length rows)) = Some rows.
Proof.
  apply mapM_Some_2, Forall2_same_length_lookup_2.
  - by rewrite length_seq.
  - intros i l v [-> _]%lookup_seq Hv.
    by rewrite lookup_app_r, Nat.add_comm, Nat.add_sub by lia.
Qed.

Lemma write_block h old new :
  length old = length new →
  foldl (λ h' (lv : nat * T), <[lv.1 := lv.2]> h') (h ++ old)
    (zip (seq (length h) (length old)) new) = h ++ new.
Proof.
  revert h new. induction old as [|o old IH]; intros h [|v new] Hlen;
    try done.
  cbn [length seq zip zip_with foldl fst snd].
  replace (<[length h := v]> (h ++ o :: old)) with ((h ++ [v]) ++ old).
  - replace (S (length h)) with (length (h ++ [v]))
      by (rewrite length_app; cbn; lia).
    rewrite IH by (cbn in Hlen; lia). by rewrite <- app_assoc.
  - rewrite <- app_assoc, insert_app_r_alt, Nat.sub_diag by done. done.
Qed.

(** Writes at references that are not below [length h] leave [h] alone. *)
Lemma write_above h x (items : list (nat * T)) :
  Forall (λ lv, length h ≤ lv.1) items →
  ∃ x', foldl (λ h' (lv : nat * T), <[lv.1 := lv.2]> h') (h ++ x) items
        = h ++ x'.
Proof.
  revert x. induction items as [|[l v] items IH]; intros x Hl; cbn.
  - by exists x.
  - apply Forall_cons in Hl as [Hl Hrest]. cbn in Hl.
    rewrite insert_app_r_alt by done. by apply IH.
Qed.

Lemma torch_stack_run values rows s :
  mapM (λ l, heap s !! l) values = Some rows → rows ≠ [] →
  torch_stack values s =
    (Some (seq (length (heap s)) (length rows)),
     Proc (heap s ++ rows) (calls s)).
Proof.
  intros Hrows Hne. unfold torch_stack.
  unfold mbind at 1, M_bind at 1, get_heap.
  mstep lift_Some; [| exact Hrows].
  by destruct rows.
Qed.

Lemma read_rows_block h rows s :
  heap s = h ++ rows →
  read_rows (seq (length h) (length rows)) s = (Some rows, s).
Proof.
  intros Hh. unfold read_rows. unfold mbind, M_bind, get_heap, lift.
  by rewrite Hh, read_block.
Qed.

Lemma write_rows_block h old new s :
  heap s = h ++ old → length old = length new →
  write_rows (seq (length h) (length old)) new s =
    (Some (), Proc (h ++ new) (calls s)).
Proof.
  intros Hh Hlen. unfold write_rows, mbind, M_bind, get_heap, put_heap.
  by rewrite Hh, write_block.
Qed.

Lemma read_rows_state values s : (read_rows values s).2 = s.
Proof. done. Qed.
End heap_facts.

Lemma deref_keys {T} (h : list T) input_dict own :
  deref h input_dict = Some own → own.*1 = input_dict.*1.
Proof.
  unfold deref. intros H%mapM_Some_1.
  induction H as [|[k l] [k' v] d o Hkl _ IH]; [done|].
  cbn in *. destruct (h !! l); [|done]. cbn in Hkl.
  injection Hkl as <- _. by rewrite IH.
Qed.

Lemma deref_dict_get {T} (h : list T) input_dict own k :
  deref h input_dict = Some own →
  dict_get own k = dict_get input_dict k ≫= (λ l, h !! l).
Proof.
  unfold deref. intros H%mapM_Some_1.
  induction H as [|[k1 l] [k' v] d o Hkl _ IH]; [done|].
  cbn in *. destruct (h !! l) as [v'|] eqn:Hl; [|done]. cbn in Hkl.
  injection Hkl as <- <-. case_decide; [by cbn | done].
Qed.

Lemma dict_set_fresh {V} (d : list (string * V)) k v :
  k ∉ d.*1 → dict_set d k v = d ++ [(k, v)].
Proof.
  induction d as [|[k' v'] d IH]; [done|]. cbn.
  intros [Hne Hk]%not_elem_of_cons. rewrite decide_False by done.
  by rewrite IH.
Qed.

Lemma dict_of_items_NoDup {V} (items : list (string * V)) :
  NoDup items.*1 → dict_of_items items = items.
Proof.
  unfold dict_of_items.
  assert (H : ∀ acc, NoDup (acc ++ items).*1 →
            foldl (λ a (kv : string * V), dict_set a kv.1 kv.2) acc items
            = acc ++ items).
  { induction items as [|[k v] items IH]; intros acc Hnd; cbn.
    - by rewrite app_nil_r.
    - rewrite dict_set_fresh.
      + rewrite IH; rewrite <- app_assoc; done.
      + rewrite fmap_app in Hnd. apply NoDup_app in Hnd as (_ & Hd & _).
        intros Hin. apply (Hd _ Hin). cbn. by left. }
  intros Hnd. by apply (H []).
Qed.

Lemma dict_get_zip {V} (names : list string) (values : list V) i k v :
  NoDup names → length names = length values →
  names !! i = Some k → values !! i = Some v →
  dict_get (zip names values) k = Some v.
Proof.
  intros Hnd Hlen Hk Hv. apply dict_get_Some.
  - by rewrite fst_zip by lia.
  - apply list_elem_of_lookup. exists i.
    by rewrite (lookup_zip_with pair names values i), Hk, Hv.
Qed.

Lemma length_sorted (keys : list string) : length (sorted keys) = length keys.
Proof. by rewrite sorted_Permutation. Qed.

Lemma mapM_id_fmap {A B} (f : A → option B) (l : list A) :
  mapM id (f <$> l) = mapM f l.
Proof. induction l as [|x l IH]; [done|]. cbn. by rewrite IH. Qed.

Lemma mapM_total {A B} (f : A → option B) (l : list A) :
  (∀ x, is_Some (f x)) →
  ∃ k, mapM f l = Some k ∧ Forall2 (λ x y, f x = Some y) l k.
Proof.
  intros Hf. destruct (mapM f l) as [k|] eqn:Hm.
  - exists k. split; [done|]. by apply mapM_Some_1.
  - apply mapM_None_1, Exists_exists in Hm as (x & _ & Hx).
    destruct (Hf x) as [y Hy]. congruence.
Qed.

(** In a group where every rank reaches the collective, the contributions
    are what the ranks compute from their own arguments. *)
Lemma contributions_contents {A B} N r (f : A → option B) (group : list A)
    (x : A) (y : B) :
  r < length group → f x = Some y →
  contributions (group_dist N r) y (λ _, f) group = mapM f (<[r := x]> group).
Proof.
  intros Hr Hx. unfold contributions. rewrite <- (mapM_id_fmap f). f_equal.
  apply list_eq. intros i. rewrite list_lookup_imap, list_lookup_fmap.
  cbn [dist_get_rank group_dist].
  destruct (decide (i = r)) as [->|Hne].
  - rewrite list_lookup_insert_eq by done.
    destruct (lookup_lt_is_Some_2 group r Hr) as [z ->]. cbn.
    by rewrite Hx.
  - rewrite list_lookup_insert_ne by done.
    by destruct (group !! i).
Qed.

(** ** The order of the additions *)

Lemma leaves_nonempty (t : schedule) : leaves t ≠ [].
Proof.
  induction t as [r|l IHl r IHr]; cbn; [done|]. by destruct (leaves l).
Qed.

Lemma valid_schedule_lt N t :
  valid_schedule N t → Forall (λ r, r < N) (leaves t).
Proof.
  unfold valid_schedule. intros Hv. apply Forall_forall. intros r Hr.
  rewrite Hv in Hr. apply elem_of_seq in Hr. lia.
Qed.

Lemma valid_schedule_length N t :
  valid_schedule N t → length (leaves t) = N.
Proof. unfold valid_schedule. intros ->. apply length_seq. Qed.

Lemma chain_leaves n : leaves (chain n) = seq 0 (S n).
Proof.
  induction n as [|n IH]; [done|].
  cbn [chain leaves]. rewrite IH. by rewrite (seq_S (S n)).
Qed.

Lemma rank_order_valid N i : 1 ≤ N → valid_schedule N (rank_order N i).
Proof.
  intros HN. unfold valid_schedule, rank_order. rewrite chain_leaves.
  by replace (S (pred N)) with N by lia.
Qed.

Lemma chain_right_leaves r n : leaves (chain_right r n) = seq r (S n).
Proof.
  revert r. induction n as [|n IH]; intros r; [done|].
  cbn [chain_right leaves]. by rewrite IH.
Qed.

Lemma peers_first_valid N i : 1 ≤ N → valid_schedule N (peers_first N i).
Proof.
  intros HN. unfold valid_schedule, peers_first. rewrite chain_right_leaves.
  by replace (S (pred N)) with N by lia.
Qed.

Section sums.
Context {T : Type}.
Variable tadd : T → T → T.

Lemma run_schedule_Some t (col : list T) :
  Forall (λ r, r < length col) (leaves t) →
  is_Some (run_schedule tadd t col).
Proof.
  induction t as [r|l IHl r IHr]; cbn.
  - intros [H _]%Forall_cons. by apply lookup_lt_is_Some_2.
  - intros [Hl Hr]%Forall_app.
    destruct (IHl Hl) as [a ->], (IHr Hr) as [b ->]. by eexists.
Qed.

(** A schedule whose leaves all hold [tbl 1] yields [tbl m] for [m]
    leaves, when [tbl] is closed under the additions met on the way. *)
Lemma run_schedule_const (tbl : nat → T) n t (col : list T) :
  (∀ r, r ∈ leaves t → col !! r = Some (tbl 1)) →
  (∀ a b, 1 ≤ a → 1 ≤ b → a + b ≤ n →
          tadd (tbl a) (tbl b) = tbl (a + b)) →
  length (leaves t) ≤ n →
  run_schedule tadd t col = Some (tbl (length (leaves t))).
Proof.
  intros Hcol Htbl. induction t as [r|l IHl r IHr]; cbn [leaves run_schedule].
  - intros _. apply Hcol. cbn. by left.
  - rewrite length_app. intros Hn.
    pose proof (leaves_nonempty l) as Hl. pose proof (leaves_nonempty r) as Hr.
    assert (1 ≤ length (leaves l))
      by (destruct (leaves l); [done | cbn; lia]).
    assert (1 ≤ length (leaves r))
      by (destruct (leaves r); [done | cbn; lia]).
    rewrite IHl, IHr; cbn.
    + by rewrite Htbl.
    + intros x Hx. apply Hcol. cbn. apply elem_of_app. by right.
    + lia.
    + intros x Hx. apply Hcol. cbn. apply elem_of_app. by left.
    + lia.
Qed.

Lemma foldl_tadd_assoc a b (xs : list T) :
  Assoc (=) tadd → foldl tadd (tadd a b) xs = tadd a (foldl tadd b xs).
Proof.
  intros Ha. revert b. induction xs as [|x xs IH]; intros b; cbn; [done|].
  rewrite <- IH. f_equal. symmetry. apply Ha.
Qed.

Lemma fold_sum_app (xs ys : list T) a b :
  Assoc (=) tadd →
  fold_sum tadd xs = Some a → fold_sum tadd ys = Some b →
  fold_sum tadd (xs ++ ys) = Some (tadd a b).
Proof.
  intros Ha. destruct xs as [|x xs], ys as [|y ys]; try done. cbn.
  intros [= <-] [= <-]. f_equal. rewrite foldl_app. cbn.
  apply foldl_tadd_assoc, Ha.
Qed.

Lemma foldl_tadd_perm a (xs ys : list T) :
  Assoc (=) tadd → Comm (=) tadd → xs ≡ₚ ys →
  foldl tadd a xs = foldl tadd a ys.
Proof.
  intros Ha Hc Hp. revert a.
  induction Hp as [|x l l' _ IH|x y l|l l' l'' _ IH1 _ IH2]; intros a; cbn.
  - done.
  - apply IH.
  - f_equal. rewrite <- !Ha. f_equal. apply Hc.
  - by rewrite IH1.
Qed.

Lemma fold_sum_perm (xs ys : list T) :
  Assoc (=) tadd → Comm (=) tadd → xs ≡ₚ ys →
  fold_sum tadd xs = fold_sum tadd ys.
Proof.
  intros Ha Hc Hp.
  induction Hp as [|x l l' Hp _|x y l|l l' l'' _ IH1 _ IH2]; cbn.
  - done.
  - f_equal. by apply foldl_tadd_perm.
  - do 2 f_equal. apply Hc.
  - by rewrite IH1.
Qed.

(** With an associative addition a schedule yields the sum of its leaves
    from left to right. *)
Lemma run_schedule_flat (x0 : T) t (col : list T) :
  Assoc (=) tadd → Forall (λ r, r < length col) (leaves t) →
  run_schedule tadd t col =
    fold_sum tadd ((λ r, default x0 (col !! r)) <$> leaves t).
Proof.
  intros Ha. induction t as [r|l IHl r IHr]; cbn [leaves run_schedule].
  - intros [H _]%Forall_cons.
    destruct (lookup_lt_is_Some_2 col r H) as [v Hv]. cbn. by rewrite Hv.
  - intros [Hl Hr]%Forall_app. rewrite fmap_app.
    destruct (run_schedule_Some l col Hl) as [a Hla].
    destruct (run_schedule_Some r col Hr) as [b Hrb].
    rewrite Hla, Hrb. cbn. symmetry. apply fold_sum_app; [done| |].
    + by rewrite <- IHl.
    + by rewrite <- IHr.
Qed.

(** With an associative and commutative addition every schedule yields the
    sum in rank order. *)
Lemma run_schedule_fold_sum t (col : list T) :
  Assoc (=) tadd → Comm (=) tadd → valid_schedule (length col) t →
  run_schedule tadd t col = fold_sum tadd col.
Proof.
  intros Ha Hc Hv. destruct col as [|x0 col'] eqn:Hcol.
  { unfold valid_schedule in Hv. cbn in Hv.
    apply Permutation_nil_r in Hv. by apply leaves_nonempty in Hv. }
  rewrite <- Hcol in *. clear Hcol col'.
  rewrite (run_schedule_flat x0) by (done || by apply valid_schedule_lt).
  apply fold_sum_perm; [done | done |].
  unfold valid_schedule in Hv. rewrite Hv.
  replace ((λ r, default x0 (col !! r)) <$> seq 0 (length col)) with col;
    [done|].
  apply list_eq. intros i. rewrite list_lookup_fmap.
  destruct (decide (i < length col)) as [Hlt|Hge].
  - rewrite lookup_seq_lt by done. cbn.
    destruct (lookup_lt_is_Some_2 col i Hlt) as [v Hi]. by rewrite Hi.
  - rewrite lookup_seq_ge by lia. cbn. apply lookup_ge_None_2. lia.
Qed.
End sums.

Section reduce_run.
Context {T : Type}.
Variable tadd : T → T → T.
Variable tdiv : T → nat → option T.
Variable order : nat → nat → schedule.
Variable mismatch : nat → list (list T) → option (list T).
Variable partial : nat → list (list T) → nat → T.

Lemma column_at_Some i (contribs : list (list T)) :
  Forall (λ c, i < length c) contribs →
  ∃ col, column_at i contribs = Some col ∧ length col = length contribs.
Proof.
  intros Hlen. unfold column_at.
  destruct (mapM (λ c : list T, c !! i) contribs) as [col|] eqn:Hm.
  - exists col. split; [done|]. symmetry. by eapply length_mapM.
  - apply mapM_None_1, Exists_exists in Hm as (c & Hc & Hnone).
    rewrite Forall_forall in Hlen.
    destruct (lookup_lt_is_Some_2 c i (Hlen c Hc)) as [v Hv]. congruence.
Qed.

Lemma sum_rows_length contribs n reduced :
  sum_rows tadd order contribs n = Some reduced → length reduced = n.
Proof.
  unfold sum_rows. intros H%length_mapM. by rewrite length_seq in H.
Qed.

Lemma sum_rows_lookup contribs n reduced i :
  sum_rows tadd order contribs n = Some reduced → i < n →
  ∃ col v, column_at i contribs = Some col ∧
    run_schedule tadd (order (length contribs) i) col = Some v ∧
    reduced !! i = Some v.
Proof.
  unfold sum_rows. intros H%mapM_Some_1 Hi.
  destruct (Forall2_lookup_l _ _ _ i i H) as (v & Hv & Hrun).
  { by apply lookup_seq_lt. }
  destruct (column_at i contribs) as [col|]; [|done].
  by exists col, v.
Qed.

Lemma sum_rows_intro contribs n reduced :
  length reduced = n →
  (∀ i v, reduced !! i = Some v →
     ∃ col, column_at i contribs = Some col ∧
       run_schedule tadd (order (length contribs) i) col = Some v) →
  sum_rows tadd order contribs n = Some reduced.
Proof.
  intros Hlen H. unfold sum_rows.
  apply mapM_Some_2, Forall2_same_length_lookup_2.
  - by rewrite length_seq.
  - intros i j v [-> _]%lookup_seq Hv. cbn [Nat.add].
    by destruct (H _ _ Hv) as (col & -> & Hr).
Qed.

(** Rank 0 gets sums as soon as every rank sent a row for each of its
    positions. *)
Lemma sum_rows_Some contribs n :
  (∀ i, valid_schedule (length contribs) (order (length contribs) i)) →
  Forall (λ c, n ≤ length c) contribs →
  is_Some (sum_rows tadd order contribs n).
Proof.
  intros Hv Hlen. unfold sum_rows. apply mapM_is_Some, Forall_forall.
  intros i [Hi0 Hi]%elem_of_seq. cbn in *.
  destruct (column_at_Some i contribs) as (col & -> & Hcol).
  { eapply Forall_impl; [exact Hlen|]. cbn. lia. }
  cbn. apply run_schedule_Some. rewrite Hcol.
  by apply valid_schedule_lt.
Qed.

Lemma forallb_True_2 {A} (f : A → bool) (l : list A) :
  Forall (λ x, f x = true) l → forallb f l = true.
Proof.
  intros H. apply forallb_forall. rewrite Forall_forall in H.
  intros x Hx. apply H. by apply list_elem_of_In.
Qed.

Lemma reduced_rows_main contribs n :
  Forall (λ c, n ≤ length c) contribs →
  reduced_rows tadd order mismatch partial 0 contribs n
  = sum_rows tadd order contribs n.
Proof.
  intros Hlen. unfold reduced_rows. cbn [Nat.eqb].
  rewrite forallb_True_2; [done|].
  eapply Forall_impl; [exact Hlen|]. cbn. intros c Hc. by apply Nat.leb_le.
Qed.

Lemma reduced_rows_other r contribs n :
  r ≠ 0 → Forall (λ c, length c = n) contribs →
  reduced_rows tadd order mismatch partial r contribs n
  = Some (partial r contribs <$> seq 0 n).
Proof.
  intros Hr Hlen. unfold reduced_rows.
  rewrite (proj2 (Nat.eqb_neq _ _) Hr).
  rewrite forallb_True_2; [done|].
  eapply Forall_impl; [exact Hlen|]. cbn. intros c Hc. by apply Nat.eqb_eq.
Qed.

(** When the tensors of the ranks have one shape, [dist.reduce] leaves
    every rank with a tensor of that shape. *)
Lemma reduced_rows_Some r contribs n :
  (∀ i, valid_schedule (length contribs) (order (length contribs) i)) →
  Forall (λ c, length c = n) contribs →
  ∃ reduced,
    reduced_rows tadd order mismatch partial r contribs n = Some reduced ∧
    length reduced = n.
Proof.
  intros Hv Hlen. destruct (decide (r = 0)) as [->|Hr].
  - rewrite reduced_rows_main
      by (eapply Forall_impl; [exact Hlen|]; cbn; lia).
    destruct (sum_rows_Some contribs n Hv) as [reduced Hred].
    { eapply Forall_impl; [exact Hlen|]. cbn. lia. }
    exists reduced. split; [done|]. by eapply sum_rows_length.
  - rewrite reduced_rows_other by done. eexists. split; [done|].
    by rewrite length_fmap, length_seq.
Qed.

Lemma dist_reduce_run d group h rows contribs reduced (s : proc T) :
  heap s = h ++ rows →
  contributions d rows (λ _, peer_stack) group = Some contribs →
  reduced_rows tadd order mismatch partial (dist_get_rank d) contribs
    (length rows) = Some reduced →
  length reduced = length rows →
  dist_reduce tadd order mismatch partial d (seq (length h) (length rows))
    group s =
    (Some (), Proc (h ++ reduced) (calls s ++ [Reduce])).
Proof.
  intros Hh Hc Hred Hlen. unfold dist_reduce.
  mstep read_rows_block; [| exact Hh].
  mstep emit_run. mstep lift_Some; [| exact Hc].
  mstep lift_Some; [| exact Hred].
  by erewrite write_rows_block.
Qed.

Lemma idiv_run h rows k n (s : proc T) :
  heap s = h ++ rows → k = length rows →
  idiv tdiv (seq (length h) k) n s =
    match mapM (λ v, tdiv v n) rows with
    | Some divided => (Some (), Proc (h ++ divided) (calls s))
    | None => (None, s)
    end.
Proof.
  intros Hh ->. unfold idiv. mstep read_rows_block; [| exact Hh].
  destruct (mapM (λ v, tdiv v n) rows) as [divided|] eqn:Hdiv.
  - mstep lift_Some; [|done].
    erewrite write_rows_block; [done | done |]. by eapply length_mapM.
  - done.
Qed.

Lemma peer_stack_Some (dct : list (string * T)) (keys : list string) :
  dct.*1 ≡ₚ keys → keys ≠ [] →
  ∃ vs, peer_stack dct = Some vs ∧
    Forall2 (λ k v, dict_get dct k = Some v) (sorted keys) vs.
Proof.
  intros Hp Hne. destruct (names_values_Some dct) as (vs & Hnv & Hvs).
  rewrite (sorted_perm_eq _ _ Hp) in Hnv, Hvs.
  exists vs. split; [|done]. unfold peer_stack. rewrite Hnv. cbn.
  destruct vs as [|v vs]; [|done].
  apply Forall2_length in Hvs. rewrite length_sorted in Hvs.
  by destruct keys.
Qed.


(** Stacking the values of [input_dict] copies what [deref] reads. *)
Lemma stack_rows (h : list T) input_dict own locs rows :
  deref h input_dict = Some own →
  Forall2 (λ k l, dict_get input_dict k = Some l) (sorted input_dict.*1) locs →
  Forall2 (λ k v, dict_get own k = Some v) (sorted input_dict.*1) rows →
  mapM (λ l, h !! l) locs = Some rows.
Proof.
  intros Hown Hlocs Hrows. apply mapM_Some_2.
  apply Forall2_same_length_lookup_2.
  - apply Forall2_length in Hlocs, Hrows. congruence.
  - intros i l v Hl Hv.
    destruct (Forall2_lookup_r _ _ _ _ _ Hlocs Hl) as (k & Hk & Hkl).
    pose proof (Forall2_lookup_lr _ _ _ _ _ _ Hrows Hk Hv) as Hkv.
    cbn beta in Hkl, Hkv.
    rewrite (deref_dict_get h input_dict own k Hown), Hkl in Hkv. done.
Qed.

(** A run of [reduce_dict] in a group: [contribs] is what the ranks send
    and [reduced] what [dist.reduce] leaves in the tensor of the caller.
    The division, on rank 0 with [average], either divides every row or
    raises and leaves the sums. *)
Lemma reduce_dict_run N r (group : list (list (string * T)))
    (input_dict : list (string * nat)) own average contribs reduced
    (s : proc T) :
  2 ≤ N → r < N → length group = N → input_dict ≠ [] →
  deref (heap s) input_dict = Some own →
  mapM peer_stack (<[r := own]> group) = Some contribs →
  reduced_rows tadd order mismatch partial r contribs (length input_dict)
    = Some reduced →
  length reduced = length input_dict →
  let names := sorted input_dict.*1 in
  let values := seq (length (heap s)) (length names) in
  let reduced_dict := dict_of_items (zip names values) in
  let log := calls s ++ [Reduce] in
  reduce_dict tadd tdiv order mismatch partial (group_dist N r) group
    input_dict average s =
    if (r =? 0) && average then
      match mapM (λ v, tdiv v N) reduced with
      | Some divided => (Some reduced_dict, Proc (heap s ++ divided) log)
      | None => (None, Proc (heap s ++ reduced) log)
      end
    else (Some reduced_dict, Proc (heap s ++ reduced) log).
Proof.
  intros HN Hr Hlen Hne Hown Hstacks Hred Hlred names values reduced_dict log.
  assert (Hkne : input_dict.*1 ≠ []) by by destruct input_dict.
  destruct (peer_stack_Some own input_dict.*1) as (rows & Hpo & Hrows);
    [by rewrite (deref_keys _ _ _ Hown) | done |].
  destruct (names_values_Some input_dict) as (locs & Hnv & Hlocs).
  fold names in Hnv, Hlocs, Hrows.
  pose proof (stack_rows (heap s) input_dict own locs rows
                Hown Hlocs Hrows) as Hread.
  assert (Hlnames : length names = length input_dict).
  { unfold names. by rewrite length_sorted, length_fmap. }
  assert (Hlrows : length rows = length names).
  { symmetry. by eapply Forall2_length. }
  assert (Hrne : rows ≠ []).
  { intros ->. cbn in Hlrows. destruct input_dict; [done | cbn in *; lia]. }
  assert (Hc : contributions (group_dist N r) rows (λ _, peer_stack) group
               = Some contribs).
  { rewrite (contributions_contents N r peer_stack group own rows);
      [done | lia | done]. }
  unfold reduce_dict. cbn [get_world_size group_dist is_available
    is_initialized negb dist_get_world_size dist_get_rank].
  rewrite (proj2 (Nat.ltb_ge _ _)) by lia.
  mstep lift_Some; [| exact Hnv]. cbn beta iota.
  mstep torch_stack_run; [| exact Hread | exact Hrne].
  mstep (dist_reduce_run (group_dist N r) group (heap s) rows contribs
           reduced); [| done | exact Hc | | ].
  2:{ cbn [dist_get_rank group_dist]. by rewrite Hlrows, Hlnames. }
  2:{ lia. }
  cbn [calls heap]. fold log. rewrite Hlrows. fold values. fold reduced_dict.
  destruct ((r =? 0) && average) eqn:Havg; [|done].
  unfold values.
  pose proof (idiv_run (heap s) reduced (length names) N
                (Proc (heap s ++ reduced) log) eq_refl) as Hdiv.
  rewrite Hlnames, <- Hlred in *. specialize (Hdiv eq_refl).
  cbn [calls] in Hdiv.
  destruct (mapM (λ v, tdiv v N) reduced) as [divided|].
  - by mstep Hdiv.
  - by rewrite (bind_None _ _ _ _ Hdiv).
Qed.
End reduce_run.

Lemma columns_of_contribs {T} (names : list string)
    (contents : list (list (string * T))) (contribs : list (list T)) i k :
  Forall2 (λ dct c, Forall2 (λ k v, dict_get dct k = Some v) names c)
    contents contribs →
  names !! i = Some k →
  ∃ vs, column k contents = Some vs ∧
        Forall2 (λ c v, c !! i = Some v) contribs vs.
Proof.
  intros H Hk. unfold column.
  induction H as [|dct c contents contribs Hc _ (vs & Hvs & Hall)].
  - by exists [].
  - destruct (Forall2_lookup_l _ _ _ _ _ Hc Hk) as (v & Hv & Hd).
    exists (v :: vs). split; [|by constructor].
    cbn. cbn in Hd. by rewrite Hd, Hvs.
Qed.

Section reduce_group.
Context {T : Type}.
Variable tadd : T → T → T.
Variable order : nat → nat → schedule.
Variable mismatch : nat → list (list T) → option (list T).
Variable partial : nat → list (list T) → nat → T.

Lemma stacks_of_keys (contents : list (list (string * T)))
    (keys : list string) :
  keys ≠ [] → Forall (λ dct : list (string * T), dct.*1 ≡ₚ keys) contents →
  ∃ contribs, mapM peer_stack contents = Some contribs ∧
    Forall2 (λ dct c,
       Forall2 (λ k v, dict_get dct k = Some v) (sorted keys) c)
      contents contribs.
Proof.
  intros Hne. induction 1 as [|dct contents Hp _ (contribs & Hm & Hall)].
  - by exists [].
  - destruct (peer_stack_Some dct keys Hp Hne) as (vs & Hvs & Hcol).
    exists (vs :: contribs). split; [|by constructor].
    cbn. by rewrite Hvs, Hm.
Qed.

(** In a group whose mappings have one key-set every rank sends one row
    per key, and [dist.reduce] leaves the caller with as many rows. *)
Lemma reduce_dict_group N r (group : list (list (string * T)))
    (input_dict : list (string * nat)) (own : list (string * T)) :
  r < N → length group = N → input_dict ≠ [] →
  Forall (λ dct : list (string * T), dct.*1 ≡ₚ input_dict.*1)
    (<[r := own]> group) →
  (∀ i, valid_schedule N (order N i)) →
  ∃ contribs reduced,
    length contribs = N ∧
    Forall2 (λ dct c, Forall2 (λ k v, dict_get dct k = Some v)
                        (sorted input_dict.*1) c)
      (<[r := own]> group) contribs ∧
    mapM peer_stack (<[r := own]> group) = Some contribs ∧
    reduced_rows tadd order mismatch partial r contribs (length input_dict)
      = Some reduced ∧
    length reduced = length input_dict.
Proof.
  intros Hr Hlen Hne Hkeys Hv.
  assert (Hkne : input_dict.*1 ≠ []) by by destruct input_dict.
  destruct (stacks_of_keys _ _ Hkne Hkeys) as (contribs & Hm & Hcols).
  assert (Hlc : length contribs = N).
  { pose proof (Forall2_length _ _ _ Hcols) as Hl.
    rewrite length_insert in Hl. congruence. }
  assert (Hrows : Forall (λ c, length c = length input_dict) contribs).
  { apply Forall_forall. intros c Hc.
    apply list_elem_of_lookup in Hc as [j Hj].
    destruct (Forall2_lookup_r _ _ _ _ _ Hcols Hj) as (dct & _ & Hall).
    apply Forall2_length in Hall.
    by rewrite length_sorted, length_fmap in Hall. }
  destruct (reduced_rows_Some tadd order mismatch partial r contribs
              (length input_dict)) as (reduced & Hred & Hlred);
    [by rewrite Hlc | done |].
  by exists contribs, reduced.
Qed.

(** Up to four equal values add up to the same sum in every order when
    the additions on the way are the ones listed. *)
Lemma run_schedule_four (x x2 x3 x4 : T) t :
  valid_schedule 4 t →
  tadd x x = x2 → tadd x2 x = x3 → tadd x x2 = x3 →
  tadd x2 x2 = x4 → tadd x3 x = x4 → tadd x x3 = x4 →
  run_schedule tadd t [x; x; x; x] = Some x4.
Proof.
  intros Hv H11 H21 H12 H22 H31 H13.
  set (tbl := λ m, match m with
                   | 0 | 1 => x | 2 => x2 | 3 => x3 | _ => x4
                   end).
  rewrite (run_schedule_const tadd tbl 4).
  - by rewrite (valid_schedule_length 4 t Hv).
  - intros r Hr. pose proof (valid_schedule_lt 4 t Hv) as Hlt.
    rewrite Forall_forall in Hlt. specialize (Hlt r Hr).
    do 4 (destruct r as [|r]; [done|]). lia.
  - intros a b Ha Hb Hab.
    assert (Hcases : (a = 1 ∧ b = 1) ∨ (a = 2 ∧ b = 1) ∨ (a = 1 ∧ b = 2) ∨
                     (a = 2 ∧ b = 2) ∨ (a = 3 ∧ b = 1) ∨ (a = 1 ∧ b = 3))
      by lia.
    by destruct Hcases
      as [[-> ->]|[[-> ->]|[[-> ->]|[[-> ->]|[[-> ->]|[-> ->]]]]]].
  - by rewrite (valid_schedule_length 4 t Hv).
Qed.
End reduce_group.

(** The order of the additions shows on floats: with rank 0 holding 1e16
    and four other ranks 1, adding rank by rank loses every unit, adding
    the other ranks first keeps them. *)
Example reduce_order_matters :
  let group := [("a", 1e16%float)] :: replicate 4 [("a", 1%float)] in
  let s := Proc [1e16%float] [] in
  reduce_dict PrimFloat.add float_div rank_order stuck (λ _ _ _, 0%float)
    (group_dist 5 0) group [("a", 0)] false s
  = (Some [("a", 1)], Proc [1e16%float; 1e16%float] [Reduce]) ∧
  reduce_dict PrimFloat.add float_div peers_first stuck (λ _ _ _, 0%float)
    (group_dist 5 0) group [("a", 0)] false s
  = (Some [("a", 1)],
     Proc [1e16%float; 10000000000000004%float] [Reduce]).
Proof. split; reflexivity. Qed.

(** C4, as the code has it: in a group of N >= 2 processes that pass mappings with
    one key-set, [reduce_dict] on rank 0 returns a mapping which has, under
    every key, the sum of the values the ranks hold under that key, added
    in the order the backend follows; without [average] the sum is kept,
    with [average] it is divided by N provided the division is defined on
    the tensors; where it is not (integer tensors) the call raises after
    the reduction and leaves the sums.  With N = 4 and [{a: 1.0, b: 2.0}] on
    every rank the result is [{a: 1.0, b: 2.0}] with [average] and
    [{a: 4.0, b: 8.0}] without, whatever the order of the additions. *)
Theorem reduce_dict_sums :
  (∀ {T} (tadd : T → T → T) (tdiv : T → nat → option T)
     (order : nat → nat → schedule)
     (mismatch : nat → list (list T) → option (list T))
     (partial : nat → list (list T) → nat → T) (N : nat)
     (group : list (list (string * T))) (input_dict : list (string * nat))
     (own : list (string * T)) (average : bool) (s : proc T),
     2 ≤ N → length group = N → NoDup input_dict.*1 →
     deref (heap s) input_dict = Some own →
     Forall (λ dct : list (string * T), dct.*1 ≡ₚ input_dict.*1)
       (<[0 := own]> group) →
     (∀ i, valid_schedule N (order N i)) →
     (average = true → ∀ v, is_Some (tdiv v N)) →
     ∀ k, k ∈ input_dict.*1 →
     ∃ reduced_dict s' l i vs total result,
       reduce_dict tadd tdiv order mismatch partial (group_dist N 0) group
         input_dict average s = (Some reduced_dict, s') ∧
       reduced_dict.*1 = sorted input_dict.*1 ∧
       dict_get reduced_dict k = Some l ∧
       sorted input_dict.*1 !! i = Some k ∧
       column k (<[0 := own]> group) = Some vs ∧
       run_schedule tadd (order N i) vs = Some total ∧
       (if average then tdiv total N else Some total) = Some result ∧
       heap s' !! l = Some result) ∧
  (∀ {T} (tadd : T → T → T) (tdiv : T → nat → option T)
     (order : nat → nat → schedule)
     (mismatch : nat → list (list T) → option (list T))
     (partial : nat → list (list T) → nat → T) (N : nat)
     (group : list (list (string * T))) (input_dict : list (string * nat))
     (own : list (string * T)) (s : proc T),
     2 ≤ N → length group = N → input_dict ≠ [] →
     deref (heap s) input_dict = Some own →
     Forall (λ dct : list (string * T), dct.*1 ≡ₚ input_dict.*1)
       (<[0 := own]> group) →
     (∀ i, valid_schedule N (order N i)) →
     (∀ v, tdiv v N = None) →
     ∃ reduced_dict sums,
       reduce_dict tadd tdiv order mismatch partial (group_dist N 0) group
         input_dict false s
       = (Some reduced_dict, Proc (heap s ++ sums) (calls s ++ [Reduce])) ∧
       reduce_dict tadd tdiv order mismatch partial (group_dist N 0) group
         input_dict true s
       = (None, Proc (heap s ++ sums) (calls s ++ [Reduce]))) ∧
  (∀ order mismatch partial,
     (∀ i, valid_schedule 4 (order 4 i)) →
     let input_dict := [("a", 0); ("b", 1)] in
     let s := Proc [1%float; 2%float] [] in
     let group := replicate 4 [("a", 1%float); ("b", 2%float)] in
     let run_avg := reduce_dict PrimFloat.add float_div order mismatch partial
                      (group_dist 4 0) group input_dict true s in
     let run_sum := reduce_dict PrimFloat.add float_div order mismatch partial
                      (group_dist 4 0) group input_dict false s in
     (run_avg.1 ≫= deref (heap run_avg.2))
       = Some [("a", 1%float); ("b", 2%float)] ∧
     (run_sum.1 ≫= deref (heap run_sum.2))
       = Some [("a", 4%float); ("b", 8%float)]).
Proof.
  split; [|split].
  - intros T tadd tdiv order mismatch partial N group input_dict own average s
      HN Hlen Hnd Hown Hkeys Hvalid Hdiv k Hk.
    assert (Hne : input_dict ≠ []).
    { intros ->. by apply elem_of_nil in Hk. }
    destruct (reduce_dict_group tadd order mismatch partial N 0 group
                input_dict own)
      as (contribs & reduced & Hlc & Hcols & Hstacks & Hred & Hlred);
      [lia | done | done | done | done |].
    pose proof (reduce_dict_run tadd tdiv order mismatch partial N 0 group
                  input_dict own average contribs reduced s HN
                  ltac:(lia) Hlen Hne Hown Hstacks Hred Hlred) as Hrun.
    cbn zeta in Hrun.
    set (names := sorted input_dict.*1) in *.
    set (values := seq (length (heap s)) (length names)) in *.
    assert (Hndn : NoDup names).
    { unfold names. by rewrite sorted_Permutation. }
    assert (Hlv : length names = length values).
    { unfold values. by rewrite length_seq. }
    assert (Hln : length names = length input_dict).
    { unfold names. by rewrite length_sorted, length_fmap. }
    rewrite dict_of_items_NoDup in Hrun by by rewrite fst_zip by lia.
    assert (Hkn : k ∈ names) by (unfold names; by rewrite sorted_Permutation).
    apply list_elem_of_lookup in Hkn as [i Hi].
    pose proof (lookup_lt_Some _ _ _ Hi) as Hlt.
    assert (Hvi : values !! i = Some (length (heap s) + i)).
    { unfold values. by apply lookup_seq_lt. }
    destruct (columns_of_contribs names _ contribs i k Hcols Hi)
      as (vs & Hcol & Hvs).
    rewrite reduced_rows_main in Hred.
    2:{ apply Forall_forall. intros c Hc.
        apply list_elem_of_lookup in Hc as [j Hj].
        destruct (Forall2_lookup_r _ _ _ _ _ Hcols Hj) as (dct & _ & Hall).
        apply Forall2_length in Hall. lia. }
    destruct (sum_rows_lookup tadd order contribs _ reduced i Hred)
      as (col & total & Hcolumn & Htotal & Hri); [lia|].
    assert (col = vs) as ->.
    { assert (column_at i contribs = Some vs) by by apply mapM_Some_2.
      congruence. }
    rewrite Hlc in Htotal.
    assert (Hget : dict_get (zip names values) k = Some (length (heap s) + i))
      by by eapply dict_get_zip.
    destruct average; cbn [Nat.eqb andb] in Hrun.
    + destruct (mapM_total (λ v, tdiv v N) reduced (Hdiv eq_refl))
        as (divided & Hdivided & Hall).
      rewrite Hdivided in Hrun.
      destruct (Forall2_lookup_l _ _ _ _ _ Hall Hri) as (q & Hq & Hdq).
      eexists _, _, (length (heap s) + i), i, vs, total, q.
      split; [exact Hrun|]. split; [by rewrite fst_zip by lia|].
      do 5 (split; [done|]).
      cbn [heap]. rewrite lookup_app_r by lia.
      by replace (length (heap s) + i - length (heap s)) with i by lia.
    + eexists _, _, (length (heap s) + i), i, vs, total, total.
      split; [exact Hrun|]. split; [by rewrite fst_zip by lia|].
      do 5 (split; [done|]).
      cbn [heap]. rewrite lookup_app_r by lia.
      by replace (length (heap s) + i - length (heap s)) with i by lia.
  - intros T tadd tdiv order mismatch partial N group input_dict own s
      HN Hlen Hne Hown Hkeys Hvalid Hdiv.
    destruct (reduce_dict_group tadd order mismatch partial N 0 group
                input_dict own)
      as (contribs & sums & _ & _ & Hstacks & Hred & Hlred);
      [lia | done | done | done | done |].
    pose proof (λ average,
      reduce_dict_run tadd tdiv order mismatch partial N 0 group input_dict
        own average contribs sums s HN ltac:(lia) Hlen Hne Hown Hstacks Hred
        Hlred) as Hrun.
    cbn zeta in Hrun.
    eexists _, sums. split; [apply (Hrun false)|].
    rewrite (Hrun true). cbn [Nat.eqb andb].
    rewrite (mapM_None_2 (λ v, tdiv v N) sums); [done|].
    destruct sums as [|v sums]; [|by left].
    destruct input_dict; [done | discriminate].
  - intros order mismatch partial Hvalid input_dict s group.
    assert (Hred : reduced_rows PrimFloat.add order mismatch partial 0
                     (replicate 4 [1%float; 2%float]) 2
                   = Some [4%float; 8%float]).
    { rewrite reduced_rows_main by (repeat constructor; cbn; lia).
      apply sum_rows_intro; [done|]. intros i v Hv.
      destruct i as [|[|i]]; cbn in Hv; simplify_eq.
      - exists [1%float; 1%float; 1%float; 1%float]. split; [done|].
        by apply (run_schedule_four PrimFloat.add 1%float 2%float 3%float).
      - exists [2%float; 2%float; 2%float; 2%float]. split; [done|].
        by apply (run_schedule_four PrimFloat.add 2%float 4%float 6%float). }
    pose proof (λ average,
      reduce_dict_run PrimFloat.add float_div order mismatch partial 4 0 group
        input_dict [("a", 1%float); ("b", 2%float)] average
        (replicate 4 [1%float; 2%float]) [4%float; 8%float] s
        ltac:(lia) ltac:(lia) eq_refl ltac:(done) eq_refl eq_refl Hred
        eq_refl) as Hrun.
    cbn zeta in Hrun.
    rewrite (Hrun true), (Hrun false). split; reflexivity.
Qed.

Lemma reduce_dict_sums_witness :
  (∃ reduced_dict s' l,
     reduce_dict PrimFloat.add float_div rank_order stuck (λ _ _ _, 0%float)
       (group_dist 4 0)
       (replicate 4 [("a", 1%float); ("b", 2%float)]) [("a", 0); ("b", 1)]
       true (Proc [1%float; 2%float] []) = (Some reduced_dict, s') ∧
     dict_get reduced_dict "a" = Some l ∧
     heap s' !! l = Some 1%float) ∧
  reduce_dict Z.add int_idiv rank_order stuck (λ _ _ _, 0%Z) (group_dist 2 0)
    [[]; [("a", 3%Z)]] [("a", 0)] true (Proc [1%Z] [])
  = (None, Proc [1; 4]%Z [Reduce]).
Proof.
  split.
  - destruct (proj1 reduce_dict_sums _ PrimFloat.add float_div rank_order
                stuck (λ _ _ _, 0%float) 4
                (replicate 4 [("a", 1%float); ("b", 2%float)])
                [("a", 0); ("b", 1)] [("a", 1%float); ("b", 2%float)]
                true (Proc [1%float; 2%float] []))
      with (k := "a")
      as (reduced & s' & l & i & vs & total & result
          & Hrun & _ & Hget & Hi & Hcol & Hsum & Hres & Hheap).
    + lia.
    + reflexivity.
    + compute_done.
    + reflexivity.
    + by repeat constructor.
    + intros i. apply rank_order_valid. lia.
    + intros _ v. by eexists.
    + by left.
    + exists reduced, s', l. split; [exact Hrun|]. split; [exact Hget|].
      rewrite Hheap, <- Hres. vm_compute in Hcol. injection Hcol as <-.
      vm_compute in Hsum. injection Hsum as <-. reflexivity.
  - destruct (proj1 (proj2 reduce_dict_sums) _ Z.add int_idiv rank_order
                stuck (λ _ _ _, 0%Z) 2 [[]; [("a", 3%Z)]] [("a", 0)]
                [("a", 1%Z)] (Proc [1%Z] []))
      as (reduced & sums & Hsum & Hraise).
    + lia.
    + reflexivity.
    + discriminate.
    + reflexivity.
    + by repeat constructor.
    + intros i. apply rank_order_valid. lia.
    + reflexivity.
    + vm_compute in Hsum. injection Hsum as <- <-. exact Hraise.
Defined.

(** C4 as stated fails on integer tensors: the sum is there after
    [dist.reduce], but with [average] the division raises and rank 0 gets no
    mapping, where without [average] it gets the sum. *)
Lemma reduce_dict_average_raises :
  let group := [[("a", 1%Z)]; [("a", 3%Z)]] in
  let s := Proc [1%Z] [] in
  reduce_dict Z.add int_idiv rank_order stuck (λ _ _ _, 0%Z) (group_dist 2 0)
    group [("a", 0)] true s
  = (None, Proc [1; 4]%Z [Reduce]) ∧
  reduce_dict Z.add int_idiv rank_order stuck (λ _ _ _, 0%Z) (group_dist 2 0)
    group [("a", 0)] false s
  = (Some [("a", 1)], Proc [1; 4]%Z [Reduce]).
Proof. split; reflexivity. Qed.

(** C5: two mappings with the same items entered in different orders give
    the same sorted names and the same values in lines 117-120, on the
    caller and on the other ranks alike, so the whole call yields the same
    result and leaves the same state. *)
Theorem reduce_dict_key_order {T} (tadd : T → T → T)
    (tdiv : T → nat → option T) (order : nat → nat → schedule)
    (mismatch : nat → list (list T) → option (list T))
    (partial : nat → list (list T) → nat → T) (d : dist)
    (group1 group2 : list (list (string * T)))
    (input1 input2 : list (string * nat)) (average : bool) (s : proc T) :
  2 ≤ get_world_size d →
  NoDup input1.*1 → input1 ≡ₚ input2 →
  Forall2 (λ m1 m2, NoDup m1.*1 ∧ m1 ≡ₚ m2) group1 group2 →
  names_values input1 = names_values input2 ∧
  StronglySorted str_le (sorted input1.*1) ∧
  reduce_dict tadd tdiv order mismatch partial d group1 input1 average s =
  reduce_dict tadd tdiv order mismatch partial d group2 input2 average s.
Proof.
  intros Hws Hnd Hp Hg. split; [by apply names_values_perm|]. split.
  - apply StronglySorted_merge_sort; apply _.
  - by apply reduce_dict_perm.
Qed.

Lemma reduce_dict_key_order_witness :
  reduce_dict Z.add int_idiv rank_order stuck (λ _ _ _, 0%Z)
    (group_dist 2 0)
    [[("a", 1%Z); ("b", 2%Z)]; [("b", 200%Z); ("a", 100%Z)]]
    [("b", 1); ("a", 0)] false (Proc [10; 20]%Z [])
  = (Some [("a", 2); ("b", 3)], Proc [10; 20; 110; 220]%Z [Reduce]) ∧
  reduce_dict Z.add int_idiv rank_order stuck (λ _ _ _, 0%Z)
    (group_dist 2 0)
    [[("b", 2%Z); ("a", 1%Z)]; [("a", 100%Z); ("b", 200%Z)]]
    [("a", 0); ("b", 1)] false (Proc [10; 20]%Z [])
  = (Some [("a", 2); ("b", 3)], Proc [10; 20; 110; 220]%Z [Reduce]).
Proof.
  destruct (reduce_dict_key_order Z.add int_idiv rank_order stuck
              (λ _ _ _, 0%Z) (group_dist 2 0)
              [[("a", 1%Z); ("b", 2%Z)]; [("b", 200%Z); ("a", 100%Z)]]
              [[("b", 2%Z); ("a", 1%Z)]; [("a", 100%Z); ("b", 200%Z)]]
              [("b", 1); ("a", 0)] [("a", 0); ("b", 1)] false
              (Proc [10; 20]%Z [])) as (_ & _ & Heq).
  - cbn. lia.
  - compute_done.
  - apply perm_swap.
  - repeat constructor; try compute_done; apply perm_swap.
  - rewrite <- Heq. split; reflexivity.
Defined.

Section frame.
Context {T : Type}.
Variable tadd : T → T → T.
Variable tdiv : T → nat → option T.
Variable order : nat → nat → schedule.
Variable mismatch : nat → list (list T) → option (list T).
Variable partial : nat → list (list T) → nat → T.

Lemma write_prefix h (h' : list T) values rows :
  h `prefix_of` h' → Forall (λ l, length h ≤ l) values →
  h `prefix_of` foldl (λ h0 (lv : nat * T), <[lv.1 := lv.2]> h0) h'
                  (zip values rows).
Proof.
  intros [x ->] Hv.
  destruct (write_above h x (zip values rows)) as [x' ->]; [|by exists x'].
  apply Forall_forall. intros [l v] Hin. cbn.
  rewrite Forall_forall in Hv. apply Hv.
  apply (elem_of_zip_l _ _ _ _ Hin).
Qed.

Lemma dist_reduce_frame h d values group (s : proc T) :
  h `prefix_of` heap s → Forall (λ l, length h ≤ l) values →
  h `prefix_of`
    heap (dist_reduce tadd order mismatch partial d values group s).2.
Proof.
  intros Hp Hv. unfold dist_reduce, read_rows, get_heap, lift, emit, raise.
  unfold mbind, M_bind. cbn.
  repeat case_match; simplify_eq/=; try done.
  all: by apply write_prefix.
Qed.

Lemma idiv_frame h values n (s : proc T) :
  h `prefix_of` heap s → Forall (λ l, length h ≤ l) values →
  h `prefix_of` heap (idiv tdiv values n s).2.
Proof.
  intros Hp Hv. unfold idiv, read_rows, get_heap, lift.
  unfold mbind, M_bind. cbn.
  repeat case_match; simplify_eq/=; try done.
  all: by apply write_prefix.
Qed.
Lemma torch_stack_cases values (s : proc T) :
  torch_stack values s = (None, s) ∨
  ∃ rows, length rows = length values ∧
    torch_stack values s =
      (Some (seq (length (heap s)) (length rows)),
       Proc (heap s ++ rows) (calls s)).
Proof.
  unfold torch_stack, mbind, M_bind, get_heap, lift. cbn.
  destruct (mapM _ values) as [rows|] eqn:Hrows; [|by left].
  destruct rows as [|v rows]; [by left|]. right.
  exists (v :: rows). split; [|done]. symmetry. by eapply length_mapM.
Qed.

(** Whatever happens in [reduce_dict], the tensors that exist at the call
    keep their contents; a mapping that is returned after a reduction has
    the keys of the argument and refers to new tensors only. *)
Lemma reduce_dict_frame_any d group (input_dict : list (string * nat))
    average (s : proc T) :
  ∃ o s',
    reduce_dict tadd tdiv order mismatch partial d group input_dict average s
      = (o, s') ∧
    heap s `prefix_of` heap s' ∧
    ∀ reduced_dict, o = Some reduced_dict →
      2 ≤ get_world_size d → NoDup input_dict.*1 →
      reduced_dict.*1 ≡ₚ input_dict.*1 ∧
      Forall (λ l, length (heap s) ≤ l) reduced_dict.*2.
Proof.
  unfold reduce_dict.
  destruct (get_world_size d <? 2) eqn:Hws.
  { eexists _, _. split; [done|]. split; [done|].
    intros ? ? Hge. apply Nat.ltb_lt in Hws. lia. }
  unfold mbind at 1, M_bind at 1, lift.
  destruct (names_values_Some input_dict) as (locs & -> & Hlocs).
  destruct (torch_stack_cases locs s) as [Hts|(rows & Hlr & Hts)].
  { rewrite (bind_None _ _ _ _ Hts). eexists _, _. split; [done|].
    split; [done | by intros]. }
  mstep Hts.
  set (values := seq (length (heap s)) (length rows)).
  set (s2 := Proc (heap s ++ rows) (calls s)).
  assert (Hv : Forall (λ l, length (heap s) ≤ l) values).
  { apply Forall_forall. intros l [i [-> _]%lookup_seq]%list_elem_of_lookup.
    lia. }
  assert (Hp2 : heap s `prefix_of` heap s2) by by exists rows.
  pose proof (dist_reduce_frame (heap s) d values group s2 Hp2 Hv) as Hp3.
  unfold mbind at 1, M_bind at 1.
  destruct (dist_reduce tadd order mismatch partial d values group s2)
    as [[[]|] s3].
  2:{ eexists _, _. split; [done|]. split; [done | by intros]. }
  unfold mbind at 1, M_bind at 1.
  assert (Hp4 : heap s `prefix_of`
                heap ((if (dist_get_rank d =? 0) && average
                       then idiv tdiv values (get_world_size d)
                       else mret ()) s3).2).
  { destruct ((dist_get_rank d =? 0) && average); [|done].
    by apply idiv_frame. }
  set (m := if (dist_get_rank d =? 0) && average
            then idiv tdiv values (get_world_size d) else mret ()) in *.
  destruct (m s3) as [[[]|] s4].
  2:{ eexists _, _. split; [done|]. split; [done | by intros]. }
  eexists _, _. split; [done|]. split; [done|].
  intros reduced_dict [= <-] _ Hnd.
  assert (Hlen : length (sorted input_dict.*1) = length values).
  { unfold values. rewrite length_seq, Hlr. by eapply Forall2_length. }
  rewrite dict_of_items_NoDup
    by (rewrite fst_zip by lia; by rewrite sorted_Permutation).
  rewrite fst_zip, snd_zip by lia. split; [apply sorted_Permutation | done].
Qed.

Lemma deref_prefix (h h' : list T) input_dict own :
  h `prefix_of` h' → deref h input_dict = Some own →
  deref h' input_dict = Some own.
Proof.
  intros Hp. unfold deref. rewrite !mapM_Some. intros H.
  eapply Forall2_impl; [exact H|]. intros [k l] [k' v]. cbn.
  destruct (h !! l) as [v'|] eqn:Hl; [|done].
  by rewrite (prefix_lookup_Some _ _ _ _ Hl Hp).
Qed.
End frame.

(** On rank 0 nothing depends on what [dist.reduce] leaves on the other
    ranks. *)
Lemma reduce_dict_main_partial {T} (tadd : T → T → T)
    (tdiv : T → nat → option T) (order : nat → nat → schedule)
    (mismatch : nat → list (list T) → option (list T))
    (partial1 partial2 : nat → list (list T) → nat → T) N group input_dict
    average (s : proc T) :
  reduce_dict tadd tdiv order mismatch partial1 (group_dist N 0) group
    input_dict average s =
  reduce_dict tadd tdiv order mismatch partial2 (group_dist N 0) group
    input_dict average s.
Proof.
  unfold reduce_dict. destruct (_ <? 2); [done|].
  apply bind_ext. intros [names values] s1.
  apply bind_ext. intros rows s2.
  apply bind_ext_l. unfold dist_reduce.
  apply bind_ext. intros local s3.
  apply bind_ext. intros _ s4.
  apply bind_ext. intros contribs s5. done.
Qed.

(** C8: the outputs on rank 0 are functions of the inputs alone.  Two runs
    of [gather_on_master] that find different bytes in their uninitialised
    allocations return the same list, and two runs of [reduce_dict] return
    the same mapping and leave the same tensors whatever the other ranks
    are left with. *)
Theorem aggregation_deterministic {Payload T} (dumps : Payload → list byte)
    (loads : list byte → option Payload) (tadd : T → T → T)
    (tdiv : T → nat → option T) (order : nat → nat → schedule)
    (mismatch : nat → list (list T) → option (list T))
    (garbage1 garbage2 : nat → nat → byte)
    (partial1 partial2 : nat → list (list T) → nat → T) (N : nat)
    (group : list Payload) (data : Payload)
    (mappings : list (list (string * T))) (input_dict : list (string * nat))
    (average : bool) (s : proc T) :
  (∀ x rest, loads (dumps x ++ rest) = Some x) →
  2 ≤ N → length group = N →
  (∃ data_list,
     (gather_on_master dumps loads garbage1 (group_dist N 0) group data s).1
       = Some (Some data_list) ∧
     (gather_on_master dumps loads garbage2 (group_dist N 0) group data s).1
       = Some (Some data_list)) ∧
  reduce_dict tadd tdiv order mismatch partial1 (group_dist N 0) mappings
    input_dict average s
  = reduce_dict tadd tdiv order mismatch partial2 (group_dist N 0) mappings
      input_dict average s.
Proof.
  intros Hframe HN Hlen. split; [|apply reduce_dict_main_partial].
  exists (<[0 := data]> group). split.
  - destruct (gather_on_master_stages dumps loads garbage1 N 0 group data s)
      as (max_size & _ & ->); [done | lia | done |].
    rewrite decide_True by done.
    erewrite gather_decode_run; [done|]. by apply padded_decodes.
  - destruct (gather_on_master_stages dumps loads garbage2 N 0 group data s)
      as (max_size & _ & ->); [done | lia | done |].
    rewrite decide_True by done.
    erewrite gather_decode_run; [done|]. by apply padded_decodes.
Qed.

Lemma aggregation_deterministic_witness :
  let s := Proc [10%float; 20%float] [] in
  (gather_on_master toy_dumps toy_loads (λ _ _, x00) (group_dist 2 0)
     [0; 2] 0 s).1
  = (gather_on_master toy_dumps toy_loads (λ _ _, xff) (group_dist 2 0)
       [0; 2] 0 s).1 ∧
  reduce_dict PrimFloat.add float_div rank_order stuck (λ _ _ _, 0%float)
    (group_dist 2 0) [[]; [("a", 5%float)]] [("a", 1)] true s
  = reduce_dict PrimFloat.add float_div rank_order stuck (λ _ _ _, 7%float)
      (group_dist 2 0) [[]; [("a", 5%float)]] [("a", 1)] true s.
Proof.
  intros s.
  destruct (aggregation_deterministic toy_dumps toy_loads PrimFloat.add
              float_div rank_order stuck (λ _ _, x00) (λ _ _, xff)
              (λ _ _ _, 0%float) (λ _ _ _, 7%float) 2 [0; 2] 0
              [[]; [("a", 5%float)]] [("a", 1)] true s)
    as [(out & H1 & H2) Hred]; [apply toy_framing | lia | reflexivity |].
  split; [by rewrite H1, H2 | exact Hred].
Defined.

(** C10: [reduce_dict] never writes to a tensor that existed at the call:
    the reduction and the division act on the rows of the new stacked
    tensor, so the mapping of the caller reads the same values afterwards;
    the mapping returned after a reduction has the keys of the argument and
    refers to new tensors only.  In a group of N >= 2 whose mappings have
    one key-set, every rank gets such a mapping without [average]; with
    [average] rank 0 gets the same mapping and finds in the new rows the
    quotients of what [dist.reduce] left there, or the division raises and
    the new rows keep the sums; in both cases the tensors of the argument
    are as they were. *)
Theorem reduce_dict_frame {T} (tadd : T → T → T)
    (tdiv : T → nat → option T) (order : nat → nat → schedule)
    (mismatch : nat → list (list T) → option (list T))
    (partial : nat → list (list T) → nat → T) :
  (∀ d group (input_dict : list (string * nat)) average (s : proc T),
     let run := reduce_dict tadd tdiv order mismatch partial d group
                  input_dict average s in
     heap s `prefix_of` heap run.2 ∧
     (∀ own, deref (heap s) input_dict = Some own →
             deref (heap run.2) input_dict = Some own) ∧
     (∀ reduced_dict, run.1 = Some reduced_dict →
        2 ≤ get_world_size d → NoDup input_dict.*1 →
        reduced_dict.*1 ≡ₚ input_dict.*1 ∧
        Forall (λ l, length (heap s) ≤ l) reduced_dict.*2)) ∧
  (∀ N r group (input_dict : list (string * nat)) own average (s : proc T),
     2 ≤ N → r < N → length group = N →
     NoDup input_dict.*1 → input_dict ≠ [] →
     deref (heap s) input_dict = Some own →
     Forall (λ dct : list (string * T), dct.*1 ≡ₚ input_dict.*1)
       (<[r := own]> group) →
     (∀ i, valid_schedule N (order N i)) →
     ∃ reduced_dict sums log,
       reduced_dict.*1 ≡ₚ input_dict.*1 ∧
       Forall (λ l, length (heap s) ≤ l) reduced_dict.*2 ∧
       length sums = length input_dict ∧
       reduce_dict tadd tdiv order mismatch partial (group_dist N r) group
         input_dict false s
       = (Some reduced_dict, Proc (heap s ++ sums) log) ∧
       reduce_dict tadd tdiv order mismatch partial (group_dist N r) group
         input_dict average s
       = (if (r =? 0) && average then
            match mapM (λ v, tdiv v N) sums with
            | Some quotients =>
                (Some reduced_dict, Proc (heap s ++ quotients) log)
            | None => (None, Proc (heap s ++ sums) log)
            end
          else (Some reduced_dict, Proc (heap s ++ sums) log)) ∧
       deref (heap (reduce_dict tadd tdiv order mismatch partial
                      (group_dist N r) group input_dict average s).2)
         input_dict = Some own).
Proof.
  assert (Hany : ∀ d group (input_dict : list (string * nat)) average
                   (s : proc T),
     let run := reduce_dict tadd tdiv order mismatch partial d group
                  input_dict average s in
     heap s `prefix_of` heap run.2 ∧
     (∀ own, deref (heap s) input_dict = Some own →
             deref (heap run.2) input_dict = Some own) ∧
     (∀ reduced_dict, run.1 = Some reduced_dict →
        2 ≤ get_world_size d → NoDup input_dict.*1 →
        reduced_dict.*1 ≡ₚ input_dict.*1 ∧
        Forall (λ l, length (heap s) ≤ l) reduced_dict.*2)).
  { intros d group input_dict average s run. subst run.
    destruct (reduce_dict_frame_any tadd tdiv order mismatch partial d group
                input_dict average s) as (o & s' & -> & Hp & Hres).
    cbn. split; [done|]. split; [|done].
    intros own. by apply deref_prefix. }
  split; [exact Hany|].
  intros N r group input_dict own average s HN Hr Hlen Hnd Hne Hown Hkeys
    Hvalid.
  destruct (reduce_dict_group tadd order mismatch partial N r group
              input_dict own)
    as (contribs & sums & _ & _ & Hstacks & Hred & Hlred); try done.
  pose proof (λ average, reduce_dict_run tadd tdiv order mismatch partial N r
                group input_dict own average contribs sums s HN Hr Hlen Hne
                Hown Hstacks Hred Hlred) as Hrun.
  cbn zeta in Hrun.
  destruct (Hany (group_dist N r) group input_dict false s)
    as (_ & _ & Hres).
  destruct (Hany (group_dist N r) group input_dict average s)
    as (_ & Hderef & _).
  pose proof (Hrun false) as Hsum. rewrite andb_false_r in Hsum.
  rewrite Hsum in Hres. cbn [fst snd] in Hres.
  destruct (Hres _ eq_refl) as [Hk Hfresh]; [cbn; lia | done |].
  eexists _, sums, _. split; [exact Hk|]. split; [exact Hfresh|].
  split; [exact Hlred|]. split; [exact Hsum|]. split; [apply Hrun|].
  by apply Hderef.
Qed.

Lemma reduce_dict_frame_witness :
  let input_dict := [("b", 1); ("a", 0)] in
  let group := [[]; [("a", 3%float); ("b", 5%float)]] in
  let s := Proc [1%float; 2%float] [] in
  reduce_dict PrimFloat.add float_div rank_order stuck (λ _ _ _, 0%float)
    (group_dist 2 0) group input_dict false s
  = (Some [("a", 2); ("b", 3)],
     Proc [1%float; 2%float; 4%float; 7%float] [Reduce]) ∧
  reduce_dict PrimFloat.add float_div rank_order stuck (λ _ _ _, 0%float)
    (group_dist 2 0) group input_dict true s
  = (Some [("a", 2); ("b", 3)],
     Proc [1%float; 2%float; 2%float; 3.5%float] [Reduce]) ∧
  deref [1%float; 2%float; 2%float; 3.5%float] input_dict
  = Some [("b", 2%float); ("a", 1%float)].
Proof.
  intros input_dict group s.
  destruct (proj2 (reduce_dict_frame PrimFloat.add float_div rank_order stuck
                     (λ _ _ _, 0%float)) 2 0 group input_dict
              [("b", 2%float); ("a", 1%float)] true s)
    as (reduced & sums & log & _ & _ & _ & Hsum & Havg & Hderef).
  - lia.
  - lia.
  - reflexivity.
  - compute_done.
  - discriminate.
  - reflexivity.
  - repeat constructor.
  - intros i. apply rank_order_valid. lia.
  - pose proof Hsum as Hc. vm_compute in Hc.
    injection Hc as <- <- <-.
    rewrite Havg in Hderef. split; [exact Hsum|]. split; [exact Havg|].
    exact Hderef.
Defined.

(** * Further properties of the code *)

(** ** The queries and [synchronize] *)

(** X1: as soon as [get_world_size] does not answer 1 the process group is
    available and initialised, so [get_rank] is [dist.get_rank()] and
    [is_main_process] is the test [dist.get_rank() == 0] that [reduce_dict]
    and the gather use; without an initialised group the process is the
    main process of a world of size 1. *)
Theorem rank_matches_dist (d : dist) :
  (get_world_size d ≠ 1 →
   is_available d = true ∧ is_initialized d = true ∧
   get_world_size d = dist_get_world_size d ∧
   get_rank d = dist_get_rank d ∧
   (is_main_process d = true ↔ dist_get_rank d = 0)) ∧
  (is_available d = false ∨ is_initialized d = false →
   get_world_size d = 1 ∧ get_rank d = 0 ∧ is_main_process d = true).
Proof.
  unfold is_main_process, get_world_size, get_rank. split.
  - destruct (is_available d), (is_initialized d); cbn; try done.
    intros _. repeat split; try done; by apply Nat.eqb_eq.
  - by intros [-> | ->]; destruct (is_available d).
Qed.

Lemma rank_matches_dist_witness :
  get_rank (Dist true true 4 3) = 3 ∧
  is_main_process (Dist true false 4 3) = true.
Proof.
  split.
  - destruct (proj1 (rank_matches_dist (Dist true true 4 3)))
      as (_ & _ & _ & H & _); [cbn; lia | exact H].
  - destruct (proj2 (rank_matches_dist (Dist true false 4 3)))
      as (_ & _ & H); [by right | exact H].
Defined.

(** X2: [synchronize] returns at once, without a call, when
    [get_world_size] is 1.  Otherwise it calls the barrier, its only call,
    and returns when the other ranks reach the barrier too; it stays
    blocked when one of them does not.  It changes no tensor. *)
Theorem synchronize_barrier {T} (d : dist) (arrived : bool) (s : proc T) :
  synchronize d arrived s =
    if decide (get_world_size d = 1) then (Some (), s)
    else (if arrived then Some () else None,
          Proc (heap s) (calls s ++ [Barrier])).
Proof.
  unfold synchronize, get_world_size.
  destruct (is_available d), (is_initialized d); cbn; try done.
  destruct (dist_get_world_size d =? 1) eqn:E.
  - apply Nat.eqb_eq in E. by rewrite decide_True.
  - apply Nat.eqb_neq in E. rewrite decide_False by done.
    by destruct arrived.
Qed.

(** ** [gather_on_master] *)

(** X3: a rank other than 0 serialises its payload and takes part in both
    collectives, never calls [pickle.loads], touches no tensor and returns
    [None], whatever the codec is. *)
Theorem gather_on_master_other_rank {Payload T} (dumps : Payload → list byte)
    (loads : list byte → option Payload) (garbage : nat → nat → byte)
    (N r : nat) (group : list Payload) (data : Payload) (s : proc T) :
  2 ≤ N → 0 < r < N → length group = N →
  gather_on_master dumps loads garbage (group_dist N r) group data s =
    (Some None, Proc (heap s) (calls s ++ [PickleDumps; AllGather; Gather])).
Proof.
  intros HN Hr Hlen.
  destruct (gather_on_master_stages dumps loads garbage N r group data s)
    as (max_size & _ & ->); [done | lia | done |].
  by rewrite decide_False by lia.
Qed.

Lemma gather_on_master_other_rank_witness :
  gather_on_master toy_dumps toy_loads (λ _ _, xff) (group_dist 3 2)
    [2; 0; 1] 1 (Proc [5%Z] [Barrier])
  = (Some None, Proc [5%Z] [Barrier; PickleDumps; AllGather; Gather]).
Proof.
  apply (gather_on_master_other_rank toy_dumps toy_loads (λ _ _, xff) 3 2
           [2; 0; 1] 1 (Proc [5%Z] [Barrier])); [lia | lia | reflexivity].
Defined.

Section log_only_facts.
Context {T : Type}.

Lemma log_only_ret {A} (a : A) : log_only (mret (M:=M T) a).
Proof. by intros s. Qed.

Lemma log_only_raise {A} : log_only (raise (T:=T) (A:=A)).
Proof. by intros s. Qed.

Lemma log_only_lift {A} (o : option A) : log_only (lift (T:=T) o).
Proof. by intros s. Qed.

Lemma log_only_emit c : log_only (emit (T:=T) c).
Proof. intros s. split; [done|]. by apply prefix_app_r. Qed.

Lemma log_only_bind {A B} (m : M T A) (f : A → M T B) :
  log_only m → (∀ a, log_only (f a)) → log_only (m ≫= f).
Proof.
  intros Hm Hf s. unfold mbind, M_bind.
  destruct (Hm s) as [Hh Hc]. destruct (m s) as [[a|] s1]; [|done].
  destruct (Hf a s1) as [Hh' Hc']. cbn in *. split; [congruence|].
  by etrans.
Qed.

Lemma log_only_mapM {A B} (f : A → M T B) (l : list A) :
  (∀ x, log_only (f x)) → log_only (mapM f l).
Proof.
  intros Hf. induction l as [|x l IH]; cbn.
  - apply log_only_ret.
  - apply log_only_bind; [done|]. intros y.
    apply log_only_bind; [done|]. intros k. apply log_only_ret.
Qed.
End log_only_facts.

(** X4: [gather_on_master] never writes to a tensor of the process and only
    adds to the log of calls, on every rank, for every group and codec, also
    when it raises. *)
Theorem gather_on_master_log_only {Payload T} (dumps : Payload → list byte)
    (loads : list byte → option Payload) (garbage : nat → nat → byte)
    (d : dist) (group : list Payload) (data : Payload) :
  log_only (gather_on_master (T:=T) dumps loads garbage d group data).
Proof.
  unfold gather_on_master. destruct (_ =? 1); [apply log_only_ret|].
  apply log_only_bind.
  { unfold gather_prepare, pickle_dumps, dist_all_gather.
    repeat first
      [ apply log_only_ret | apply log_only_raise | apply log_only_lift
      | apply log_only_emit | apply log_only_bind; [|intros ?]
      | case_bool_decide ]. }
  intros [[size_list max_size] tensor]. apply log_only_bind.
  { unfold gather_exchange, dist_gather. destruct (is_main_process d);
    repeat first
      [ apply log_only_ret | apply log_only_raise | apply log_only_lift
      | apply log_only_emit | apply log_only_bind; [|intros ?]
      | case_bool_decide | destruct (dist_get_rank d =? 0) ]. }
  intros [tensor_list|]; [|apply log_only_ret].
  apply log_only_bind; [|intros ?; apply log_only_ret].
  apply log_only_mapM. intros b. unfold pickle_loads.
  apply log_only_bind; [apply log_only_emit | intros ?; apply log_only_lift].
Qed.

Section gather_more.
Context {Payload T : Type}.
Variable dumps : Payload → list byte.
Variable loads : list byte → option Payload.
Variable garbage : nat → nat → byte.

(** What rank 0 of a group of N >= 2 has after lines 61-90. *)
Lemma gather_main_receives N (group : list Payload) data (s : proc T) :
  2 ≤ N → length group = N →
  let group' := <[0 := data]> group in
  ∃ max_size,
    py_max (serialized_size dumps <$> group') = Some max_size ∧
    gather_prepare dumps garbage (group_dist N 0) group data s =
      (Some (serialized_size dumps <$> group', max_size,
             padded dumps garbage max_size 0 data),
       Proc (heap s) (calls s ++ [PickleDumps; AllGather])) ∧
    ∀ s1 : proc T,
      gather_exchange dumps garbage (group_dist N 0) group
        (serialized_size dumps <$> group', max_size,
         padded dumps garbage max_size 0 data) s1 =
      (Some (Some (imap (padded dumps garbage max_size) group')),
       Proc (heap s1) (calls s1 ++ [Gather])).
Proof.
  intros HN Hlen group'.
  destruct (gather_prepare_run dumps garbage (group_dist N 0) group data s)
    as (max_size & Hmax & Hprep); [done | cbn; lia |].
  cbn [dist_get_rank group_dist] in *. fold group' in Hmax, Hprep.
  exists max_size. split; [done|]. split; [done|]. intros s1.
  destruct (py_max_spec _ _ Hmax) as [_ Hle].
  pose proof (group_max_nonneg _ _ _ Hmax) as Hpos.
  pose proof (gather_exchange_run dumps garbage (group_dist N 0) group data
                max_size s1) as Hex.
  cbn [dist_get_rank group_dist] in Hex. by apply Hex.
Qed.

Lemma gather_decode_fails ok bad rest data_list (s : proc T) :
  Forall2 (λ b x, loads b = Some x) ok data_list → loads bad = None →
  gather_decode loads (ok ++ bad :: rest) s =
    (None, Proc (heap s) (calls s ++ (PickleLoads <$> ok ++ [bad]))).
Proof.
  intros Hok Hbad. revert s. unfold gather_decode.
  induction Hok as [|b x bs xs Hb _ IH]; intros s.
  - cbn [app mapM]. erewrite bind_None; [done|].
    unfold pickle_loads. mstep emit_run. by rewrite Hbad.
  - cbn [app mapM]. mstep pickle_loads_run; [| exact Hb].
    erewrite bind_None; [| apply IH]. cbn. by rewrite <- app_assoc.
Qed.

Lemma padded_same_size max_size r x :
  serialized_size dumps x = max_size → padded dumps garbage max_size r x = dumps x.
Proof.
  intros <-. unfold padded. rewrite Z.sub_diag. cbn. apply app_nil_r.
Qed.

Lemma truncate_padded max_size (group : list Payload) :
  truncated_buffers (serialized_size dumps <$> group)
    (imap (padded dumps garbage max_size) group) = dumps <$> group.
Proof.
  apply list_eq. intros i. unfold truncated_buffers.
  rewrite lookup_zip_with, !list_lookup_fmap, list_lookup_imap.
  destruct (group !! i) as [x|]; [|done]. cbn. f_equal.
  unfold padded, serialized_size. rewrite Nat2Z.id. apply take_app_length.
Qed.

Lemma total_bytes_same_length (buffers : list (list byte)) n :
  Forall (λ b, length b = n) buffers →
  total_bytes buffers = length buffers * n.
Proof.
  intros H. unfold total_bytes.
  induction H as [|b bs Hb _ IH]; [done|]. cbn. rewrite Hb, IH. lia.
Qed.
End gather_more.

Lemma loads_buffers_app (cs1 cs2 : list call) :
  loads_buffers (cs1 ++ cs2) = loads_buffers cs1 ++ loads_buffers cs2.
Proof. apply omap_app. Qed.

Lemma loads_buffers_loads (buffers : list (list byte)) :
  loads_buffers (PickleLoads <$> buffers) = buffers.
Proof.
  unfold loads_buffers. induction buffers as [|b l IH]; [done|].
  cbn. by rewrite IH.
Qed.

(** X5: when [pickle.loads] fails on the buffer received from some rank,
    the call on rank 0 raises; the buffers of the ranks before it have been
    decoded, those of the ranks after it never reach [pickle.loads]. *)
Theorem gather_on_master_decode_error {Payload T}
    (dumps : Payload → list byte) (loads : list byte → option Payload)
    (garbage : nat → nat → byte) (N r : nat) (group : list Payload)
    (data : Payload) (max_size : Z) (s : proc T) :
  2 ≤ N → length group = N → r < N →
  let group' := <[0 := data]> group in
  let received := imap (padded dumps garbage max_size) group' in
  let run :=
    gather_on_master dumps loads garbage (group_dist N 0) group data s in
  py_max (serialized_size dumps <$> group') = Some max_size →
  (∀ r' b, r' < r → received !! r' = Some b → is_Some (loads b)) →
  (∀ b, received !! r = Some b → loads b = None) →
  run.1 = None ∧
  loads_buffers (calls run.2) = loads_buffers (calls s) ++ take (S r) received.
Proof.
  intros HN Hlen Hr group' received run Hmax Hbefore Hbad.
  destruct (gather_on_master_stages dumps loads garbage N 0 group data s)
    as (max_size' & Hmax' & Hrun); [done | lia | done |].
  fold group' in Hmax'. rewrite Hmax in Hmax'. injection Hmax' as <-.
  fold group' received run in Hrun. rewrite decide_True in Hrun by done.
  assert (Hlr : r < length received).
  { unfold received, group'. by rewrite length_imap, length_insert, Hlen. }
  destruct (lookup_lt_is_Some_2 _ _ Hlr) as [bad Hb].
  assert (Hok : ∃ xs, Forall2 (λ b x, loads b = Some x) (take r received) xs).
  { assert (H : is_Some (mapM loads (take r received))).
    { apply mapM_is_Some, Forall_forall.
      intros b [i Hi]%list_elem_of_lookup.
      apply lookup_take_Some in Hi as [Hi Hlt]. by apply (Hbefore i). }
    destruct H as [xs Hxs]. exists xs. by apply mapM_Some_1. }
  destruct Hok as [xs Hok].
  rewrite <- (take_drop_middle received r bad Hb) in Hrun.
  rewrite (gather_decode_fails loads _ _ _ xs _ Hok (Hbad _ Hb)) in Hrun.
  rewrite Hrun. cbn [fst snd calls]. split; [done|].
  rewrite (take_S_r _ _ _ Hb), !loads_buffers_app, loads_buffers_loads.
  cbn. by rewrite app_nil_r.
Qed.

Lemma gather_on_master_decode_error_witness :
  let run := gather_on_master bare_dumps bare_loads (λ _ _, x00)
               (group_dist 3 0) [1; 0; 2] 1 (Proc (T:=unit) [] []) in
  run.1 = None ∧
  loads_buffers (calls run.2) = [[x01; x00]].
Proof.
  apply (gather_on_master_decode_error bare_dumps bare_loads (λ _ _, x00)
           3 0 [1; 0; 2] 1 2 (Proc (T:=unit) [] []));
    [lia | reflexivity | lia | reflexivity | intros; lia |].
  intros b [= <-]. reflexivity.
Defined.

(** X6: when all payloads serialise to the same number of bytes nothing is
    padded: every rank's buffer reaches [pickle.loads] exactly as
    [pickle.dumps] wrote it, so a codec that merely round-trips gives back
    the payloads, whatever the uninitialised memory holds. *)
Theorem gather_on_master_equal_sizes {Payload T}
    (dumps : Payload → list byte) (loads : list byte → option Payload)
    (garbage : nat → nat → byte) (N : nat) (group : list Payload)
    (data : Payload) (s : proc T) :
  2 ≤ N → length group = N →
  let group' := <[0 := data]> group in
  (∀ x, x ∈ group' → serialized_size dumps x = serialized_size dumps data) →
  (∀ x, x ∈ group' → loads (dumps x) = Some x) →
  gather_on_master dumps loads garbage (group_dist N 0) group data s =
    (Some (Some group'),
     Proc (heap s) (calls s ++ [PickleDumps; AllGather; Gather]
                      ++ (PickleLoads <$> (dumps <$> group')))).
Proof.
  intros HN Hlen group' Hsize Hrt.
  destruct (gather_on_master_stages dumps loads garbage N 0 group data s)
    as (max_size & Hmax & Hrun); [done | lia | done |].
  fold group' in Hmax, Hrun. rewrite decide_True in Hrun by done.
  destruct (py_max_spec _ _ Hmax) as [Hin _].
  apply list_elem_of_fmap in Hin as (y & Hy & Hyin).
  rewrite (Hsize y Hyin) in Hy.
  assert (Heq : imap (padded dumps garbage max_size) group' = dumps <$> group').
  { apply list_eq. intros i. rewrite list_lookup_imap, list_lookup_fmap.
    destruct (group' !! i) as [x|] eqn:Hx; [|done]. cbn. f_equal.
    apply padded_same_size. rewrite Hy. apply Hsize.
    by eapply list_elem_of_lookup_2. }
  rewrite Heq in Hrun. rewrite Hrun.
  erewrite gather_decode_run.
  - cbn. by rewrite <- app_assoc.
  - apply Forall2_fmap_l, Forall_Forall2_diag, Forall_forall. exact Hrt.
Qed.

Lemma gather_on_master_equal_sizes_witness :
  gather_on_master bare_dumps bare_loads (λ _ _, xff) (group_dist 2 0)
    [2; 2] 2 (Proc (T:=unit) [] [])
  = (Some (Some [2; 2]),
     Proc [] [PickleDumps; AllGather; Gather;
              PickleLoads [x01; x01]; PickleLoads [x01; x01]]).
Proof.
  apply (gather_on_master_equal_sizes bare_dumps bare_loads (λ _ _, xff) 2
           [2; 2] 2 (Proc (T:=unit) [] [])); [lia | reflexivity | |].
  - intros x Hx. cbn in Hx. by repeat (apply elem_of_cons in Hx as [->|Hx]);
      try by apply elem_of_nil in Hx.
  - intros x _. apply bare_roundtrip.
Defined.

(** X7: the padding is a pure suffix.  Cutting every buffer that rank 0
    received back to the size its rank reported in the all-gather gives
    exactly the bytes that rank's [pickle.dumps] wrote. *)
Theorem gather_truncation_recovers {Payload T} (dumps : Payload → list byte)
    (garbage : nat → nat → byte) (N : nat) (group : list Payload)
    (data : Payload) (s : proc T) :
  2 ≤ N → length group = N →
  ∃ size_list max_size tensor s1 tensor_list s2,
    gather_prepare dumps garbage (group_dist N 0) group data s
      = (Some (size_list, max_size, tensor), s1) ∧
    gather_exchange dumps garbage (group_dist N 0) group
      (size_list, max_size, tensor) s1 = (Some (Some tensor_list), s2) ∧
    truncated_buffers size_list tensor_list = dumps <$> <[0 := data]> group.
Proof.
  intros HN Hlen.
  destruct (gather_main_receives dumps garbage N group data s HN Hlen)
    as (max_size & _ & Hprep & Hex).
  eexists _, _, _, _, _, _. split; [exact Hprep|]. split; [apply Hex|].
  apply truncate_padded.
Qed.

Lemma gather_truncation_recovers_witness :
  ∃ size_list tensor_list,
    truncated_buffers size_list tensor_list
      = [[x2e]; [x01; x01; x2e]] ∧
    (gather_exchange toy_dumps (λ _ _, xff) (group_dist 2 0) [0; 2]
       (size_list, 3%Z, [x2e; xff; xff])
       (Proc (T:=unit) [] [PickleDumps; AllGather])).1
      = Some (Some tensor_list).
Proof.
  destruct (gather_truncation_recovers toy_dumps (λ _ _, xff) 2 [0; 2] 0
              (Proc (T:=unit) [] []))
    as (sl & m & t & s1 & tl & s2 & Hp & He & Ht); [lia | reflexivity |].
  pose proof Hp as Hc. vm_compute in Hc. injection Hc as <- <- <- <-.
  exists [1; 3]%Z, tl. split; [exact Ht | by rewrite He].
Defined.

(** X8: rank 0 receives exactly [world_size * max_size] bytes, and
    [max_size] is the size of the longest pickle of the group, so the buffer
    of at least one rank arrives without padding. *)
Theorem gather_received_bytes {Payload T} (dumps : Payload → list byte)
    (garbage : nat → nat → byte) (N : nat) (group : list Payload)
    (data : Payload) (s : proc T) :
  2 ≤ N → length group = N →
  ∃ size_list max_size tensor s1 tensor_list s2,
    gather_prepare dumps garbage (group_dist N 0) group data s
      = (Some (size_list, max_size, tensor), s1) ∧
    gather_exchange dumps garbage (group_dist N 0) group
      (size_list, max_size, tensor) s1 = (Some (Some tensor_list), s2) ∧
    Z.of_nat (total_bytes tensor_list) = (Z.of_nat N * max_size)%Z ∧
    ∃ r x, <[0 := data]> group !! r = Some x ∧
           serialized_size dumps x = max_size ∧
           tensor_list !! r = Some (dumps x).
Proof.
  intros HN Hlen.
  destruct (gather_main_receives dumps garbage N group data s HN Hlen)
    as (max_size & Hmax & Hprep & Hex).
  destruct (py_max_spec _ _ Hmax) as [Hin Hle].
  pose proof (group_max_nonneg _ _ _ Hmax) as Hpos.
  eexists _, _, _, _, _, _. split; [exact Hprep|]. split; [apply Hex|].
  split.
  - rewrite (total_bytes_same_length _ (Z.to_nat max_size))
      by by apply Forall_length_padded.
    rewrite length_imap, length_insert, Hlen. lia.
  - apply list_elem_of_lookup in Hin as [r Hr].
    rewrite list_lookup_fmap in Hr.
    destruct (<[0:=data]> group !! r) as [x|] eqn:Hx; [|done].
    injection Hr as Hr. exists r, x. split; [done|]. split; [done|].
    rewrite list_lookup_imap, Hx. cbn. f_equal. by apply padded_same_size.
Qed.

Lemma gather_received_bytes_witness :
  ∃ tensor_list,
    (gather_exchange toy_dumps (λ _ _, xff) (group_dist 2 0) [0; 2]
       ([1; 3]%Z, 3%Z, [x2e; xff; xff])
       (Proc (T:=unit) [] [PickleDumps; AllGather])).1
      = Some (Some tensor_list) ∧
    total_bytes tensor_list = 6.
Proof.
  destruct (gather_received_bytes toy_dumps (λ _ _, xff) 2 [0; 2] 0
              (Proc (T:=unit) [] []))
    as (sl & m & t & s1 & tl & s2 & Hp & He & Hb & _); [lia | reflexivity |].
  pose proof Hp as Hc. vm_compute in Hc. injection Hc as <- <- <- <-.
  exists tl. split; [by rewrite He | lia].
Defined.

(** X9: lines 76-79 succeed exactly when the tensor is not longer than
    [max_size]: then the result is the tensor followed by
    [max_size - local_size] bytes and has [max_size] bytes; a longer tensor
    asks [torch.ByteTensor] for a negative size, which raises. *)
Theorem pad_cases (garbage : nat → nat → byte) (rank : nat) (max_size : Z)
    (tensor : list byte) :
  ((Z.of_nat (length tensor) ≤ max_size)%Z →
   ∃ padding,
     pad garbage rank max_size tensor = Some (tensor ++ padding) ∧
     Z.of_nat (length padding) = (max_size - Z.of_nat (length tensor))%Z) ∧
  ((max_size < Z.of_nat (length tensor))%Z →
   pad garbage rank max_size tensor = None).
Proof.
  unfold pad, ByteTensor. split; intros H.
  - case_bool_decide as Hne.
    + rewrite (proj2 (Z.ltb_ge _ _)) by lia. eexists. split; [done|].
      rewrite length_uninitialized. lia.
    + exists []. rewrite app_nil_r. split; [done | cbn; lia].
  - rewrite bool_decide_true by lia.
    by rewrite (proj2 (Z.ltb_lt _ _)) by lia.
Qed.

Lemma pad_cases_witness :
  pad (λ _ _, xff) 0 1 [x01; x01; x2e] = None ∧
  ∃ padding, pad (λ _ _, xff) 0 3 [x2e] = Some ([x2e] ++ padding).
Proof.
  split.
  - apply (pad_cases (λ _ _, xff) 0 1 [x01; x01; x2e]). cbn. lia.
  - destruct (proj1 (pad_cases (λ _ _, xff) 0 3 [x2e])) as (p & Hp & _);
      [cbn; lia | by exists p].
Defined.

(** X10: the ranks of a group agree.  Rank [r] obtains from lines 70-74 the
    same sizes and the same [max_size] as rank 0, and the tensor it hands to
    the gather is the one rank 0 finds at index [r] of what it received. *)
Theorem gather_ranks_agree {Payload T} (dumps : Payload → list byte)
    (garbage : nat → nat → byte) (N r : nat) (group : list Payload)
    (data0 data : Payload) (s0 s : proc T) :
  2 ≤ N → r < N → length group = N →
  group !! 0 = Some data0 → group !! r = Some data →
  ∃ size_list max_size tensor0 tensor s0' s' tensor_list s0'',
    gather_prepare dumps garbage (group_dist N 0) group data0 s0
      = (Some (size_list, max_size, tensor0), s0') ∧
    gather_prepare dumps garbage (group_dist N r) group data s
      = (Some (size_list, max_size, tensor), s') ∧
    gather_exchange dumps garbage (group_dist N 0) group
      (size_list, max_size, tensor0) s0' = (Some (Some tensor_list), s0'') ∧
    tensor_list !! r = Some tensor.
Proof.
  intros HN Hr Hlen H0 Hd.
  destruct (gather_main_receives dumps garbage N group data0 s0 HN Hlen)
    as (max_size & Hmax & Hprep & Hex).
  destruct (gather_prepare_run dumps garbage (group_dist N r) group data s)
    as (max_size' & Hmax' & Hprep'); [done | cbn; lia |].
  cbn [dist_get_rank group_dist] in *.
  rewrite (list_insert_id _ _ _ H0) in *.
  rewrite (list_insert_id _ _ _ Hd) in *.
  rewrite Hmax in Hmax'. injection Hmax' as <-.
  eexists _, _, _, _, _, _, _, _. split; [exact Hprep|].
  split; [exact Hprep'|]. split; [apply Hex|].
  by rewrite list_lookup_imap, Hd.
Qed.

Lemma gather_ranks_agree_witness :
  ∃ tensor_list,
    (gather_exchange toy_dumps (λ _ _, xff) (group_dist 3 0) [2; 0; 1]
       ([3; 1; 2]%Z, 3%Z, [x01; x01; x2e])
       (Proc (T:=unit) [] [PickleDumps; AllGather])).1
      = Some (Some tensor_list) ∧
    tensor_list !! 1 = Some [x2e; xff; xff].
Proof.
  destruct (gather_ranks_agree toy_dumps (λ _ _, xff) 3 1 [2; 0; 1] 2 0
              (Proc (T:=unit) [] []) (Proc (T:=unit) [] []))
    as (sl & m & t0 & t & s0' & s' & tl & s0'' & Hp0 & Hp & He & Hl);
    [lia | lia | reflexivity | reflexivity | reflexivity |].
  pose proof Hp0 as Hc. vm_compute in Hc. injection Hc as <- <- <- <-.
  pose proof Hp as Hc. vm_compute in Hc. injection Hc as <- <-.
  exists tl. split; [by rewrite He | exact Hl].
Defined.

(** ** [reduce_dict] *)

(** X11: in a group, [reduce_dict] of a mapping without keys raises in
    [torch.stack], before [dist.reduce] is called: nothing is written, no
    call is logged (and the other ranks are left waiting in theirs). *)
Theorem reduce_dict_empty {T} (tadd : T → T → T)
    (tdiv : T → nat → option T) (order : nat → nat → schedule)
    (mismatch : nat → list (list T) → option (list T))
    (partial : nat → list (list T) → nat → T) (d : dist)
    (group : list (list (string * T))) (average : bool) (s : proc T) :
  2 ≤ get_world_size d →
  reduce_dict tadd tdiv order mismatch partial d group [] average s = (None, s).
Proof.
  intros Hws. unfold reduce_dict.
  by rewrite (proj2 (Nat.ltb_ge _ _)) by done.
Qed.

Lemma reduce_dict_empty_witness :
  reduce_dict Z.add int_idiv rank_order stuck (λ _ _ _, 0%Z)
    (group_dist 2 0) [[]; []] [] true (Proc [10; 20]%Z [])
  = (None, Proc [10; 20]%Z []).
Proof. apply reduce_dict_empty. cbn. lia. Defined.

(** X12: the division by the world size happens on rank 0 only: on any
    other rank [average] makes no difference to what the call returns and
    leaves. *)
Theorem reduce_dict_average_other_rank {T} (tadd : T → T → T)
    (tdiv : T → nat → option T) (order : nat → nat → schedule)
    (mismatch : nat → list (list T) → option (list T))
    (partial : nat → list (list T) → nat → T)
    (d : dist) (group : list (list (string * T)))
    (input_dict : list (string * nat)) (s : proc T) :
  dist_get_rank d ≠ 0 →
  reduce_dict tadd tdiv order mismatch partial d group input_dict true s =
  reduce_dict tadd tdiv order mismatch partial d group input_dict false s.
Proof.
  intros Hr. unfold reduce_dict.
  by rewrite (proj2 (Nat.eqb_neq _ _) Hr).
Qed.

Lemma reduce_dict_average_other_rank_witness :
  reduce_dict Z.add int_idiv rank_order stuck (λ _ _ _, 7%Z)
    (group_dist 2 1) [[("a", 4%Z)]; []] [("a", 0)] true (Proc [10]%Z [])
  = (Some [("a", 1)], Proc [10; 7]%Z [Reduce]).
Proof.
  rewrite (reduce_dict_average_other_rank Z.add
             int_idiv rank_order stuck (λ _ _ _, 7%Z) (group_dist 2 1)
             [[("a", 4%Z)]; []] [("a", 0)] (Proc [10]%Z [])); [|discriminate].
  reflexivity.
Defined.

Section reduce_more.
Context {T : Type}.
Variable tadd : T → T → T.
Variable tdiv : T → nat → option T.
Variable order : nat → nat → schedule.
Variable mismatch : nat → list (list T) → option (list T).
Variable partial : nat → list (list T) → nat → T.


Lemma dist_reduce_calls d values group (s : proc T) :
  calls (dist_reduce tadd order mismatch partial d values group s).2
    = calls s ∨
  calls (dist_reduce tadd order mismatch partial d values group s).2
    = calls s ++ [Reduce].
Proof.
  unfold dist_reduce, read_rows, write_rows, get_heap, put_heap, lift, emit,
    raise.
  unfold mbind, M_bind. cbn.
  repeat case_match; simplify_eq/=; auto.
Qed.

Lemma idiv_calls values n (s : proc T) :
  calls (idiv tdiv values n s).2 = calls s.
Proof.
  unfold idiv, read_rows, write_rows, get_heap, put_heap, lift.
  unfold mbind, M_bind. cbn.
  by repeat case_match; simplify_eq/=.
Qed.

Lemma torch_stack_calls values (s : proc T) :
  calls (torch_stack values s).2 = calls s.
Proof.
  unfold torch_stack, get_heap, put_heap, lift, raise.
  unfold mbind, M_bind. cbn.
  by repeat case_match; simplify_eq/=.
Qed.
End reduce_more.



(** X14: on every rank of a group whose mappings have one key-set, the
    mapping that [reduce_dict] returns lists the keys in sorted order,
    whatever order the caller entered them in; its values are, in that
    order, the rows of one new tensor with a row per key, all of them live
    when the call returns; and the call makes exactly one call outside the
    process, [dist.reduce].  Rank 0 with [average] returns when the
    division is defined on the tensors. *)
Theorem reduce_dict_result_shape {T} (tadd : T → T → T)
    (tdiv : T → nat → option T) (order : nat → nat → schedule)
    (mismatch : nat → list (list T) → option (list T))
    (partial : nat → list (list T) → nat → T) (N r : nat)
    (group : list (list (string * T))) (input_dict : list (string * nat))
    (own : list (string * T)) (average : bool) (s : proc T) :
  2 ≤ N → r < N → length group = N →
  NoDup input_dict.*1 → input_dict ≠ [] →
  deref (heap s) input_dict = Some own →
  Forall (λ dct : list (string * T), dct.*1 ≡ₚ input_dict.*1)
    (<[r := own]> group) →
  (∀ i, valid_schedule N (order N i)) →
  (r = 0 → average = true → ∀ v, is_Some (tdiv v N)) →
  ∃ reduced_dict s',
    reduce_dict tadd tdiv order mismatch partial (group_dist N r) group
      input_dict average s = (Some reduced_dict, s') ∧
    reduced_dict.*1 = sorted input_dict.*1 ∧
    StronglySorted str_le reduced_dict.*1 ∧
    reduced_dict.*2 = seq (length (heap s)) (length input_dict) ∧
    length (heap s') = length (heap s) + length input_dict ∧
    is_Some (deref (heap s') reduced_dict) ∧
    calls s' = calls s ++ [Reduce].
Proof.
  intros HN Hr Hlen Hnd Hne Hown Hkeys Hvalid Hdiv.
  destruct (reduce_dict_group tadd order mismatch partial N r group
              input_dict own)
    as (contribs & reduced & _ & _ & Hstacks & Hred & Hlred); try done.
  pose proof (reduce_dict_run tadd tdiv order mismatch partial N r group
                input_dict own average contribs reduced s HN Hr Hlen Hne
                Hown Hstacks Hred Hlred) as Hrun.
  cbn zeta in Hrun.
  set (names := sorted input_dict.*1) in *.
  assert (Hln : length names = length input_dict).
  { unfold names. by rewrite length_sorted, length_fmap. }
  rewrite Hln in Hrun.
  set (values := seq (length (heap s)) (length input_dict)) in *.
  assert (Hlv : length values = length names).
  { unfold values. by rewrite length_seq. }
  rewrite dict_of_items_NoDup in Hrun.
  2:{ rewrite fst_zip by lia. unfold names. by rewrite sorted_Permutation. }
  assert (Hrows : ∃ rows, length rows = length input_dict ∧
            reduce_dict tadd tdiv order mismatch partial (group_dist N r)
              group input_dict average s
            = (Some (zip names values),
               Proc (heap s ++ rows) (calls s ++ [Reduce]))).
  { destruct ((r =? 0) && average) eqn:Havg.
    - apply andb_true_iff in Havg as [Hr0%Nat.eqb_eq ->].
      destruct (mapM_total (λ v, tdiv v N) reduced (Hdiv Hr0 eq_refl))
        as (divided & Hdivided & Hall).
      rewrite Hdivided in Hrun. exists divided. split; [|done].
      apply Forall2_length in Hall. lia.
    - by exists reduced. }
  destruct Hrows as (rows & Hlrows & Hrun').
  eexists _, _. split; [exact Hrun'|].
  rewrite fst_zip, snd_zip by lia. cbn [heap calls].
  split; [done|]. split.
  { apply StronglySorted_merge_sort; apply _. }
  split; [done|]. split.
  { rewrite length_app. lia. }
  split; [|done].
  unfold deref. apply mapM_is_Some, Forall_forall.
  intros [k l] Hin. cbn.
  assert (Hl : l ∈ values) by apply (elem_of_zip_r _ _ _ _ Hin).
  apply list_elem_of_lookup in Hl as [i [-> Hi]%lookup_seq].
  destruct (lookup_lt_is_Some_2 (heap s ++ rows) (length (heap s) + i))
    as [v ->]; [| by eexists].
  rewrite length_app. lia.
Qed.

Lemma reduce_dict_result_shape_witness :
  ∃ s',
    reduce_dict PrimFloat.add float_div rank_order stuck (λ _ _ _, 0%float)
      (group_dist 2 0)
      [[]; [("b", 200%float); ("a", 100%float)]]
      [("b", 1); ("a", 0)] true (Proc [10%float; 20%float] [])
    = (Some [("a", 2); ("b", 3)], s') ∧
    calls s' = [Reduce].
Proof.
  destruct (reduce_dict_result_shape PrimFloat.add float_div rank_order stuck
              (λ _ _ _, 0%float) 2 0
              [[]; [("b", 200%float); ("a", 100%float)]]
              [("b", 1); ("a", 0)] [("b", 20%float); ("a", 10%float)] true
              (Proc [10%float; 20%float] []))
    as (rd & s' & Hrun & _ & _ & _ & _ & _ & Hcalls).
  - lia.
  - lia.
  - reflexivity.
  - compute_done.
  - discriminate.
  - reflexivity.
  - repeat constructor.
  - intros i. apply rank_order_valid. lia.
  - intros _ _ v. by eexists.
  - exists s'. split; [|exact Hcalls].
    pose proof Hrun as Hc. vm_compute in Hc. injection Hc as <- _.
    exact Hrun.
Defined.

(** X15: on rank 0 averaging is the sum followed by one division of every
    row by the world size, in place in the new rows.  When every row can be
    divided, the call returns the mapping it returns without [average] and
    leaves the quotients where the sums were; when a row cannot (integer
    tensors), the call raises after [dist.reduce], returns nothing and
    leaves the sums. *)
Theorem reduce_dict_average_of_sum {T} (tadd : T → T → T)
    (tdiv : T → nat → option T) (order : nat → nat → schedule)
    (mismatch : nat → list (list T) → option (list T))
    (partial : nat → list (list T) → nat → T) (N : nat)
    (group : list (list (string * T))) (input_dict : list (string * nat))
    (own : list (string * T)) (s : proc T) :
  2 ≤ N → length group = N → input_dict ≠ [] →
  deref (heap s) input_dict = Some own →
  Forall (λ dct : list (string * T), dct.*1 ≡ₚ input_dict.*1)
    (<[0 := own]> group) →
  (∀ i, valid_schedule N (order N i)) →
  ∃ reduced_dict rows,
    let log := calls s ++ [Reduce] in
    let run_avg := reduce_dict tadd tdiv order mismatch partial
                     (group_dist N 0) group input_dict true s in
    length rows = length input_dict ∧
    reduce_dict tadd tdiv order mismatch partial (group_dist N 0) group
      input_dict false s
      = (Some reduced_dict, Proc (heap s ++ rows) log) ∧
    (∀ quotients, Forall2 (λ v q, tdiv v N = Some q) rows quotients →
       run_avg = (Some reduced_dict, Proc (heap s ++ quotients) log)) ∧
    (Exists (λ v, tdiv v N = None) rows →
       run_avg = (None, Proc (heap s ++ rows) log)).
Proof.
  intros HN Hlen Hne Hown Hkeys Hvalid.
  destruct (reduce_dict_group tadd order mismatch partial N 0 group
              input_dict own)
    as (contribs & rows & _ & _ & Hstacks & Hred & Hlred);
    [lia | done | done | done | done |].
  pose proof (λ average, reduce_dict_run tadd tdiv order mismatch partial N 0
                group input_dict own average contribs rows s HN ltac:(lia)
                Hlen Hne Hown Hstacks Hred Hlred) as Hrun.
  cbn zeta in Hrun.
  eexists _, rows. cbn zeta. split; [exact Hlred|].
  split; [apply (Hrun false)|]. split.
  - intros quotients Hq. rewrite (Hrun true). cbn [Nat.eqb andb].
    by rewrite (mapM_Some_2 _ _ _ Hq).
  - intros Hex. rewrite (Hrun true). cbn [Nat.eqb andb].
    by rewrite (mapM_None_2 _ _ Hex).
Qed.

Lemma reduce_dict_average_of_sum_witness :
  reduce_dict PrimFloat.add float_div rank_order stuck (λ _ _ _, 0%float)
    (group_dist 2 0) [[]; [("a", 30%float)]] [("a", 0)] true
    (Proc [10%float] [])
  = (Some [("a", 1)], Proc [10%float; 20%float] [Reduce]) ∧
  reduce_dict Z.add int_idiv rank_order stuck (λ _ _ _, 0%Z)
    (group_dist 2 0) [[]; [("a", 30%Z)]] [("a", 0)] true (Proc [10%Z] [])
  = (None, Proc [10%Z; 40%Z] [Reduce]).
Proof.
  split.
  - destruct (reduce_dict_average_of_sum PrimFloat.add float_div rank_order
                stuck (λ _ _ _, 0%float) 2 [[]; [("a", 30%float)]]
                [("a", 0)] [("a", 10%float)] (Proc [10%float] []))
      as (rd & rows & _ & Hsum & Havg & _);
      [lia | reflexivity | discriminate | reflexivity | repeat constructor
      | intros i; apply rank_order_valid; lia |].
    vm_compute in Hsum. injection Hsum as <- <-.
    apply (Havg [20%float]). by repeat constructor.
  - destruct (reduce_dict_average_of_sum Z.add int_idiv rank_order
                stuck (λ _ _ _, 0%Z) 2 [[]; [("a", 30%Z)]]
                [("a", 0)] [("a", 10%Z)] (Proc [10%Z] []))
      as (rd & rows & _ & Hsum & _ & Hraise);
      [lia | reflexivity | discriminate | reflexivity | repeat constructor
      | intros i; apply rank_order_valid; lia |].
    vm_compute in Hsum. injection Hsum as <- <-.
    apply Hraise. by left.
Defined.

Lemma reduce_dict_calls_any {T} (tadd : T → T → T)
    (tdiv : T → nat → option T) (order : nat → nat → schedule)
    (mismatch : nat → list (list T) → option (list T))
    (partial : nat → list (list T) → nat → T) (d : dist)
    (group : list (list (string * T))) (input_dict : list (string * nat))
    (average : bool) (s : proc T) :
  ∃ o s',
    reduce_dict tadd tdiv order mismatch partial d group input_dict average s
      = (o, s') ∧
    (calls s' = calls s ∨ calls s' = calls s ++ [Reduce]).
Proof.
  unfold reduce_dict.
  destruct (_ <? 2); [eexists _, _; split; [done | by left] |].
  unfold mbind at 1, M_bind at 1, lift.
  destruct (names_values input_dict) as [[names locs]|];
    [| eexists _, _; split; [done | by left] ].
  unfold mbind at 1, M_bind at 1.
  pose proof (torch_stack_calls locs s) as Hts.
  destruct (torch_stack locs s) as [[values|] s1]; cbn in Hts;
    [| eexists _, _; split; [done | by left] ].
  unfold mbind at 1, M_bind at 1.
  pose proof (dist_reduce_calls tadd order mismatch partial d values group
                s1) as Hdr.
  destruct (dist_reduce tadd order mismatch partial d values group s1)
    as [[[]|] s2];
    cbn in Hdr; rewrite Hts in Hdr;
    [| eexists _, _; split; [done | exact Hdr] ].
  unfold mbind at 1, M_bind at 1.
  set (m := if (dist_get_rank d =? 0) && average
            then idiv tdiv values (get_world_size d) else mret ()).
  assert (Hm : calls (m s2).2 = calls s2).
  { unfold m. destruct (_ && _); [apply idiv_calls | done]. }
  destruct (m s2) as [[[]|] s3]; cbn in Hm; rewrite <- Hm in Hdr;
    eexists _, _; split; try done.
Qed.

(** X16: whatever its arguments and however it ends, [reduce_dict] calls
    nothing outside the process but [dist.reduce], and that at most once;
    it never pickles. *)
Theorem reduce_dict_calls {T} (tadd : T → T → T)
    (tdiv : T → nat → option T) (order : nat → nat → schedule)
    (mismatch : nat → list (list T) → option (list T))
    (partial : nat → list (list T) → nat → T) (d : dist)
    (group : list (list (string * T))) (input_dict : list (string * nat))
    (average : bool) (s : proc T) :
  let run := reduce_dict tadd tdiv order mismatch partial d group input_dict
               average s in
  calls run.2 = calls s ∨ calls run.2 = calls s ++ [Reduce].
Proof.
  destruct (reduce_dict_calls_any tadd tdiv order mismatch partial d group
              input_dict average s) as (o & s' & -> & H).
  exact H.
Qed.

Lemma forallb_perm {A} (f : A → bool) (l1 l2 : list A) :
  l1 ≡ₚ l2 → forallb f l1 = forallb f l2.
Proof.
  induction 1 as [|x l1 l2 _ IH|x y l|l1 l2 l3 _ IH1 _ IH2]; cbn.
  - done.
  - by rewrite IH.
  - by destruct (f x), (f y).
  - congruence.
Qed.

Lemma mapM_perm {A B} (f : A → option B) (l1 l2 : list A) :
  l1 ≡ₚ l2 →
  (mapM f l1 = None ∧ mapM f l2 = None) ∨
  ∃ k1 k2, mapM f l1 = Some k1 ∧ mapM f l2 = Some k2 ∧ k1 ≡ₚ k2.
Proof.
  intros Hp. induction Hp as [|x l1 l2 _ IH|x y l|l1 l2 l3 _ IH1 _ IH2].
  - right. by exists [], [].
  - cbn. destruct (f x) as [z|]; [|by left].
    destruct IH as [[-> ->]|(k1 & k2 & -> & -> & Hk)]; [by left|].
    right. exists (z :: k1), (z :: k2).
    split; [done|]. split; [done|]. by apply perm_skip.
  - cbn. destruct (f x) as [z|], (f y) as [w|], (mapM f l) as [k|];
      try (by left).
    right. exists (w :: z :: k), (z :: w :: k).
    split; [done|]. split; [done|]. apply perm_swap.
  - destruct IH1 as [[H1 H2]|(k1 & k2 & H1 & H2 & Hk)],
      IH2 as [[H2' H3]|(k2' & k3 & H2' & H3 & Hk')]; try congruence.
    + by left.
    + right. exists k1, k3. split; [done|]. split; [done|].
      rewrite H2 in H2'. injection H2' as <-. by etrans.
Qed.

(** What rank 0 collects in a reduction: its own rows, then those of the
    other ranks. *)
Lemma contributions_main {T} (d : dist) (local : list T) g0
    (peers : list (list (string * T))) :
  dist_get_rank d = 0 →
  contributions d local (λ _, peer_stack) (g0 :: peers) =
    cs ← mapM peer_stack peers; Some (local :: cs).
Proof.
  intros Hr. unfold contributions. rewrite imap_cons, Hr.
  rewrite decide_True by done.
  assert (Himap : imap ((λ (r : nat) (x : list (string * T)),
                           if decide (r = 0) then Some local
                           else peer_stack x) ∘ S) peers
                  = peer_stack <$> peers).
  { rewrite <- (imap_const peer_stack). apply imap_ext. intros i x _.
    unfold compose, const. by rewrite decide_False by lia. }
  rewrite Himap. cbn. by rewrite mapM_id_fmap.
Qed.

(** With exact arithmetic the sums do not depend on the order of the
    other ranks, whatever the schedule is. *)
Lemma sum_rows_perm {T} (tadd : T → T → T) (order : nat → nat → schedule)
    (c : list T) (cs1 cs2 : list (list T)) n :
  Assoc (=) tadd → Comm (=) tadd → cs1 ≡ₚ cs2 →
  (∀ i, valid_schedule (S (length cs1)) (order (S (length cs1)) i)) →
  sum_rows tadd order (c :: cs1) n = sum_rows tadd order (c :: cs2) n.
Proof.
  intros Ha Hc Hp Hv. unfold sum_rows.
  cbn [length]. rewrite <- (Permutation_length Hp).
  apply mapM_ext. intros i. unfold column_at. cbn.
  destruct (c !! i) as [v|]; cbn; [|done].
  destruct (mapM_perm (λ c' : list T, c' !! i) cs1 cs2 Hp)
    as [[H1 H2]|(k1 & k2 & H1 & H2 & Hk)].
  - by rewrite H1, H2.
  - rewrite H1, H2. cbn.
    apply length_mapM in H1, H2.
    rewrite !run_schedule_fold_sum; try done.
    + cbn. f_equal. by apply foldl_tadd_perm.
    + cbn [length]. rewrite <- H2, <- (Permutation_length Hp). apply Hv.
    + cbn [length]. rewrite <- H1. apply Hv.
Qed.

(** X17: when the addition of the tensors is associative and commutative
    (exact arithmetic), what [reduce_dict] returns and leaves on rank 0 does
    not depend on how the other ranks are numbered, whatever the order of
    the additions is; where the shapes of the tensors do not fit, as far as
    the backend does not tell the numberings apart either. *)
Theorem reduce_dict_peer_order {T} (tadd : T → T → T)
    (tdiv : T → nat → option T) (order : nat → nat → schedule)
    (mismatch : nat → list (list T) → option (list T))
    (partial : nat → list (list T) → nat → T) (N : nat)
    (g0 : list (string * T)) (peers1 peers2 : list (list (string * T)))
    (input_dict : list (string * nat)) (average : bool) (s : proc T) :
  (∀ x y z, tadd x (tadd y z) = tadd (tadd x y) z) →
  (∀ x y, tadd x y = tadd y x) →
  (∀ i, valid_schedule (S (length peers1)) (order (S (length peers1)) i)) →
  (∀ c cs cs', cs ≡ₚ cs' → mismatch 0 (c :: cs) = mismatch 0 (c :: cs')) →
  peers1 ≡ₚ peers2 →
  reduce_dict tadd tdiv order mismatch partial (group_dist N 0)
    (g0 :: peers1) input_dict average s =
  reduce_dict tadd tdiv order mismatch partial (group_dist N 0)
    (g0 :: peers2) input_dict average s.
Proof.
  intros Hassoc Hcomm Hvalid Hmis Hp.
  unfold reduce_dict. destruct (_ <? 2); [done|].
  apply bind_ext. intros [names values] s1.
  apply bind_ext. intros rows s2.
  apply bind_ext_l. unfold dist_reduce.
  apply bind_ext. intros local s3.
  apply bind_ext. intros _ s4.
  rewrite !contributions_main by done.
  destruct (mapM_perm peer_stack peers1 peers2 Hp)
    as [[-> ->]|(cs1 & cs2 & H1 & H2 & Hcs)]; [done|].
  rewrite H1, H2.
  change (Some cs1 ≫= λ cs, Some (local :: cs)) with (Some (local :: cs1)).
  change (Some cs2 ≫= λ cs, Some (local :: cs)) with (Some (local :: cs2)).
  rewrite (bind_Some _ _ s4 (local :: cs1) s4) by done.
  rewrite (bind_Some _ _ s4 (local :: cs2) s4) by done.
  apply bind_ext_l. f_equal.
  cbn [dist_get_rank group_dist]. unfold reduced_rows. cbn [Nat.eqb].
  rewrite (forallb_perm _ (local :: cs1) (local :: cs2)) by by constructor.
  destruct (forallb _ _); [|by apply Hmis].
  apply sum_rows_perm; try done.
  apply length_mapM in H1. by rewrite <- H1.
Qed.

Lemma reduce_dict_peer_order_witness :
  reduce_dict Z.add int_idiv rank_order stuck (λ _ _ _, 0%Z)
    (group_dist 3 0) [[]; [("a", 30%Z)]; [("a", 500%Z)]] [("a", 0)] false
    (Proc [10]%Z [])
  = (Some [("a", 1)], Proc [10; 540]%Z [Reduce]).
Proof.
  rewrite (reduce_dict_peer_order Z.add int_idiv rank_order stuck
             (λ _ _ _, 0%Z) 3 [] [[("a", 30%Z)]; [("a", 500%Z)]]
             [[("a", 500%Z)]; [("a", 30%Z)]] [("a", 0)] false
             (Proc [10]%Z [])).
  - reflexivity.
  - intros; lia.
  - intros; lia.
  - intros i. apply rank_order_valid. cbn. lia.
  - reflexivity.
  - apply perm_swap.
Defined.

(** ** [MeshGraphormerDetector] *)



(** X19: [from_pretrained] assigns to the module-level [args] as it goes.
    When the first download raises nothing is changed; when the second one
    raises, [args.resume_checkpoint] is already overwritten while
    [args.hrnet_checkpoint] and [args.device] keep their old values. *)
Theorem from_pretrained_failure {Device Pipeline Other : Type}
    (custom_hf_download : string → string → option string → option string)
    (MeshGraphormerMediapipe : Args → option Pipeline)
    (args : Args (Device:=Device) (Other:=Other)) (repo : string)
    (filename hrnet_filename cache_dir : option string)
    (new_device : option Device) :
  let name1 := str_or filename "graphormer_hand_state_dict.bin" in
  let name2 := str_or hrnet_filename "hrnetv2_w64_imagenet_pretrained.pth" in
  let run := from_pretrained custom_hf_download MeshGraphormerMediapipe args
               repo filename hrnet_filename cache_dir new_device in
  (custom_hf_download repo name1 cache_dir = None → run = (None, args)) ∧
  (∀ path1, custom_hf_download repo name1 cache_dir = Some path1 →
     custom_hf_download repo name2 cache_dir = None →
     run = (None, MkArgs path1 (hrnet_checkpoint args) (device args)
                    (other_args args))).
Proof.
  intros name1 name2 run. subst run name1 name2. unfold from_pretrained.
  split.
  - by intros ->.
  - intros path1 -> H2. destruct args as [r h dv o]. cbn. by rewrite H2.
Qed.

Lemma from_pretrained_failure_witness :
  from_pretrained (Device:=string) (Pipeline:=string) (Other:=unit)
    (λ _ name _, if decide (name = "model.bin") then Some "/cache/model.bin"
                 else None)
    (λ a, Some (resume_checkpoint a)) (MkArgs "old" "old_hrnet" None ())
    "repo" (Some "model.bin") None None (Some "cuda")
  = (None, MkArgs "/cache/model.bin" "old_hrnet" None ()).
Proof.
  apply (proj2 (from_pretrained_failure (Device:=string) (Pipeline:=string)
                  (Other:=unit)
                  (λ _ name _, if decide (name = "model.bin")
                               then Some "/cache/model.bin" else None)
                  (λ a, Some (resume_checkpoint a))
                  (MkArgs "old" "old_hrnet" None ()) "repo"
                  (Some "model.bin") None None (Some "cuda")));
    reflexivity.
Defined.

(** X20: when the pipeline finds no depth map, [__call__] goes on with an
    all-zero depth map and an all-zero mask of the shape of the validated
    input, and drops whatever mask the pipeline returned: the call cannot be
    told from one where the pipeline had returned these two zero images. *)
Theorem detector_call_no_depth {Pipeline Input Kwargs Array Pil Info : Type}
    (common_input_validate :
       Input → option string → Kwargs → option (Array * option string))
    (get_depth get_depth' :
       Pipeline → Array → Z → option (option Array * option Array * Info))
    (zeros_like : Array → Array) (HWC3 : option Array → option Array)
    (resize_image_with_pad :
       Array → Z → string → option (Array * (Array → option Array)))
    (fromarray : Array → option Pil)
    (pipeline : Pipeline) (input_image : Input) (img : Array)
    (output_type output_type' : option string) (pad res : Z) (up : string)
    (kwargs : Kwargs) (mask : option Array) (info : Info) :
  common_input_validate input_image output_type kwargs
    = Some (img, output_type') →
  get_depth pipeline img pad = Some (None, mask, info) →
  get_depth' pipeline img pad
    = Some (Some (zeros_like img), Some (zeros_like img), info) →
  detector_call common_input_validate get_depth zeros_like HWC3
    resize_image_with_pad fromarray pipeline input_image pad res output_type
    up kwargs =
  detector_call common_input_validate get_depth' zeros_like HWC3
    resize_image_with_pad fromarray pipeline input_image pad res output_type
    up kwargs.
Proof.
  intros Hv Hd Hd'. unfold detector_call. rewrite Hv. cbn.
  by rewrite Hd, Hd'.
Qed.

Lemma detector_call_no_depth_witness :
  detector_call (Pipeline:=unit) (Input:=nat) (Kwargs:=unit) (Pil:=nat)
    (Info:=nat)
    (λ img ot _, Some (img, ot)) (λ _ _ _, Some (None, Some 7, 3))
    (λ _, 0) id (λ a res _, Some (a + Z.to_nat res, λ b, Some b)) Some
    () 5 30 512 (Some "pil") "INTER_CUBIC" ()
  = Some (inr 512, inr 0, 3).
Proof.
  rewrite (detector_call_no_depth (Pipeline:=unit) (Input:=nat)
             (Kwargs:=unit) (Pil:=nat) (Info:=nat)
             (λ img ot _, Some (img, ot)) (λ _ _ _, Some (None, Some 7, 3))
             (λ _ _ _, Some (Some 0, Some 0, 3))
             (λ _, 0) id (λ a res _, Some (a + Z.to_nat res, λ b, Some b))
             Some () 5 5 (Some "pil") (Some "pil") 30 512 "INTER_CUBIC" ()
             (Some 7) 3); reflexivity.
Defined.

(** X21: only the depth map is resized.  The mask and the [info] that
    [__call__] returns do not depend on [detect_resolution] nor on
    [upscale_method]; and the depth map and the mask come back in the same
    form, both arrays or both PIL images. *)
Theorem detector_call_mask {Pipeline Input Kwargs Array Pil Info : Type}
    (common_input_validate :
       Input → option string → Kwargs → option (Array * option string))
    (get_depth :
       Pipeline → Array → Z → option (option Array * option Array * Info))
    (zeros_like : Array → Array) (HWC3 : option Array → option Array)
    (resize_image_with_pad :
       Array → Z → string → option (Array * (Array → option Array)))
    (fromarray : Array → option Pil)
    (pipeline : Pipeline) (input_image : Input)
    (output_type : option string) (pad res1 res2 : Z) (up1 up2 : string)
    (kwargs : Kwargs) (d1 m1 d2 m2 : Array + Pil) (i1 i2 : Info) :
  detector_call common_input_validate get_depth zeros_like HWC3
    resize_image_with_pad fromarray pipeline input_image pad res1 output_type
    up1 kwargs = Some (d1, m1, i1) →
  detector_call common_input_validate get_depth zeros_like HWC3
    resize_image_with_pad fromarray pipeline input_image pad res2 output_type
    up2 kwargs = Some (d2, m2, i2) →
  m1 = m2 ∧ i1 = i2 ∧
  (is_array d1 ↔ is_array m1) ∧ (is_array d1 ↔ is_array d2).
Proof.
  unfold detector_call.
  destruct (common_input_validate _ _ _) as [[img ot]|]; [|done]. cbn.
  destruct (get_depth _ _ _) as [[[depth mask] info]|]; [|done]. cbn.
  set (dm := match depth with
             | Some _ => (depth, mask)
             | None => (Some (zeros_like img), Some (zeros_like img))
             end).
  destruct dm as [depth' mask'].
  destruct (HWC3 depth') as [dh|]; [|done]. cbn.
  destruct (HWC3 mask') as [mh|]; [|done]. cbn.
  destruct (resize_image_with_pad dh res1 up1) as [[r1 rp1]|]; [|done].
  destruct (resize_image_with_pad dh res2 up2) as [[r2 rp2]|]; [|done].
  cbn. destruct (rp1 r1) as [q1|]; [|done].
  destruct (rp2 r2) as [q2|]; [|done]. cbn.
  case_bool_decide.
  - destruct (fromarray q1), (fromarray q2), (fromarray mh); cbn; try done.
    by intros [= <- <- <-] [= <- <- <-].
  - by intros [= <- <- <-] [= <- <- <-].
Qed.

Lemma detector_call_mask_witness :
  detector_call (Pipeline:=unit) (Input:=nat) (Kwargs:=unit) (Pil:=nat)
    (Info:=nat)
    (λ img ot _, Some (img, ot)) (λ _ _ _, Some (Some 9, Some 7, 3))
    (λ _, 0) id (λ a res _, Some (a + Z.to_nat res, λ b, Some b)) Some
    () 5 30 512 None "INTER_CUBIC" () = Some (inl 521, inl 7, 3) ∧
  detector_call (Pipeline:=unit) (Input:=nat) (Kwargs:=unit) (Pil:=nat)
    (Info:=nat)
    (λ img ot _, Some (img, ot)) (λ _ _ _, Some (Some 9, Some 7, 3))
    (λ _, 0) id (λ a res _, Some (a + Z.to_nat res, λ b, Some b)) Some
    () 5 30 256 None "INTER_AREA" () = Some (inl 265, inl 7, 3) ∧
  inl (B:=nat) 7 = inl 7.
Proof.
  split; [reflexivity|]. split; [reflexivity|].
  apply (detector_call_mask (Pipeline:=unit) (Input:=nat) (Kwargs:=unit)
           (Pil:=nat) (Info:=nat)
           (λ img ot _, Some (img, ot)) (λ _ _ _, Some (Some 9, Some 7, 3))
           (λ _, 0) id (λ a res _, Some (a + Z.to_nat res, λ b, Some b)) Some
           () 5 None 30 512 256 "INTER_CUBIC" "INTER_AREA" ()
           (inl 521) (inl 7) (inl 265) (inl 7) 3 3); reflexivity.
Defined.
